(** * Koch-style fractal generator ("Q3 fractal.py"): model and properties

    The program builds the closed vertex loop of a regular polygon,
    replaces every edge by the four Koch segments [depth] times, and
    reports segment count, segment length and perimeter.

    Numbers: a Python [int] is a [Z]; a Python [float] is idealised as a
    real number [R], so [+ - *] are the field operations, and [math.sin],
    [math.cos], [math.sqrt], [math.pi] are [sin], [cos], [sqrt], [PI].
    Division keeps its one Python failure: a zero divisor raises
    [ZeroDivisionError].  Exceptions are values of [exn], and a function
    that can raise returns a [result].  The bounded range of floats enters
    in one place: [write_summary_checked] is [write_summary] with the
    [OverflowError] of converting an int too large for a float.

    After the generator come its command-line program ([prompt_int],
    [prompt_float], [save_plot], [main]) as a trace of terminal and disk
    events, and the substitution cipher of "Q1 encrypt,decrypt,verify.py"
    in the modules [Cipher] and [CipherFacts]. *)

From Stdlib Require Import Reals ZArith List Lia Lra Bool.
From Stdlib Require String Ascii.
From Stdlib Require Import Permutation.
Import ListNotations.

Open Scope Z_scope.
Open Scope R_scope.

(** ** Exceptions and the error monad *)

Inductive exn : Set :=
| ValueError
| ZeroDivisionError
| IndexError
| OverflowError.

Inductive result (A : Type) : Type :=
| Ok (a : A)
| Raise (e : exn).

Arguments Ok {A} a.
Arguments Raise {A} e.

Definition bind {A B : Type} (m : result A) (k : A -> result B) : result B :=
  match m with
  | Ok a => k a
  | Raise e => Raise e
  end.

Notation "x <- m ;; k" := (bind m (fun x => k))
  (at level 61, m at next level, right associativity).

(** A [for] loop over [items] that threads the loop state [s] and stops at
    the first exception. *)
Fixpoint for_ {I S : Type} (items : list I) (body : I -> S -> result S)
  (s : S) : result S :=
  match items with
  | [] => Ok s
  | i :: rest => s' <- body i s ;; for_ rest body s'
  end.

(** [range(n)]: [0, 1, ..., n-1], empty when [n <= 0]. *)
Definition range (n : Z) : list Z :=
  map Z.of_nat (seq 0 (Z.to_nat n)).

Definition len {A : Type} (l : list A) : Z := Z.of_nat (length l).

(** [l[i]] with Python's negative indices; out of range raises
    [IndexError]. *)
Definition index {A : Type} (l : list A) (i : Z) : result A :=
  let j := if (i <? 0)%Z then (i + len l)%Z else i in
  if (j <? 0)%Z then Raise IndexError
  else match nth_error l (Z.to_nat j) with
       | Some a => Ok a
       | None => Raise IndexError
       end.

(** Float division [x / y]. *)
Definition fdiv (x y : R) : result R :=
  if Req_EM_T y 0 then Raise ZeroDivisionError else Ok (x / y).

(** ** The program *)

Definition point : Type := (R * R)%type.

(** [regular_polygon(n_sides, side_len)] *)
Definition regular_polygon (n_sides : Z) (side_len : R) : result (list point) :=
  if (n_sides <? 3)%Z then Raise ValueError
  else
    q <- fdiv PI (IZR n_sides) ;;
    R <- fdiv side_len (2 * sin q) ;;
    pts <- for_ (range n_sides)
             (fun k pts =>
                theta <- fdiv (2 * PI * IZR k) (IZR n_sides) ;;
                let x := R * cos theta in
                let y := R * sin theta in
                Ok (pts ++ [(x, y)]))
             [] ;;
    p0 <- index pts 0 ;;
    Ok (pts ++ [p0]).

(** [koch_subdivide(p0, p1)] *)
Definition koch_subdivide (p0 p1 : point) : result (list point) :=
  let '((x0, y0), (x1, y1)) := (p0, p1) in
  let '(dx, dy) := (x1 - x0, y1 - y0) in
  ax <- fdiv dx 3 ;;
  ay <- fdiv dy 3 ;;
  let a := (x0 + ax, y0 + ay) in
  bx <- fdiv (2 * dx) 3 ;;
  by_ <- fdiv (2 * dy) 3 ;;
  let b := (x0 + bx, y0 + by_) in
  ux <- fdiv dx 3 ;;
  uy <- fdiv dy 3 ;;
  sin60 <- fdiv (sqrt 3) 2 ;;
  let cos60 := 0.5 in
  let px := fst a + ux * cos60 - uy * sin60 in
  let py := snd a + ux * sin60 + uy * cos60 in
  let peak := (px, py) in
  Ok [p0; a; peak; b; p1].

(** [koch_iter(points)]; [seg_points[:-1]] is [removelast seg_points]. *)
Definition koch_iter (points : list point) : result (list point) :=
  new_pts <- for_ (range (len points - 1))
               (fun i new_pts =>
                  p0 <- index points i ;;
                  p1 <- index points (i + 1) ;;
                  seg_points <- koch_subdivide p0 p1 ;;
                  Ok (new_pts ++ removelast seg_points))
               [] ;;
  first <- index new_pts 0 ;;
  Ok (new_pts ++ [first]).

(** [generate_fractal(n_sides, side_len, depth)] *)
Definition generate_fractal (n_sides : Z) (side_len : R) (depth : Z)
  : result (list point) :=
  pts <- regular_polygon n_sides side_len ;;
  for_ (range depth) (fun _ pts => koch_iter pts) pts.

(** Values of the summary report.  [4 ** depth] and [3 ** depth] are
    integers for [depth >= 0] and floats otherwise, and [float('nan')] is a
    value of its own. *)
Inductive num : Type :=
| Int (z : Z)
| Float (r : R)
| NaN.

(** [b ** e] for an integer base [b <> 0]. *)
Definition ipow (b e : Z) : num :=
  if (0 <=? e)%Z then Int (b ^ e) else Float (/ IZR (b ^ (- e))).

Definition num_mul (a b : num) : num :=
  match a, b with
  | NaN, _ | _, NaN => NaN
  | Int x, Int y => Int (x * y)
  | Int x, Float y => Float (IZR x * y)
  | Float x, Int y => Float (x * IZR y)
  | Float x, Float y => Float (x * y)
  end.

(** [x / d] for a float [x]. *)
Definition num_fdiv (x : R) (d : num) : result num :=
  match d with
  | NaN => Ok NaN
  | Int z => r <- fdiv x (IZR z) ;; Ok (Float r)
  | Float y => r <- fdiv x y ;; Ok (Float r)
  end.

Record summary : Type := {
  segments : num;
  seg_len : num;
  perimeter : num;
  points_written : Z
}.

(** [write_summary(n_sides, side_len, depth, points, out_path)]: the values
    computed for the report; the file itself is not modelled. *)
Definition write_summary (n_sides : Z) (side_len : R) (depth : Z)
  (points : list point) : result summary :=
  let segments := num_mul (Int n_sides) (ipow 4 depth) in
  seg_len <- (if (0 <=? depth)%Z then num_fdiv side_len (ipow 3 depth)
              else Ok NaN) ;;
  let perimeter := num_mul segments seg_len in
  Ok {| segments := segments; seg_len := seg_len;
        perimeter := perimeter; points_written := len points |}.

(** *** The summary within the range of floats

    [write_summary] above takes a float for a real number of any size.
    The only exception that the bounded range of floats adds to its code is
    the [OverflowError] of converting an int that is too large for a float
    ("int too large to convert to float"), in [float / int], [int * float]
    and [int ** negative int].  The definitions below are the same code with
    these conversions checked; the float values themselves stay real
    numbers (a product too large for a float is [inf] in Python, not an
    exception). *)

(** An int converts to a float when it rounds to at most the largest
    float, [2^1024 - 2^971]: when its magnitude is below
    [2^1024 - 2^970]. *)
Definition float_limit : Z := 2 ^ 1024 - 2 ^ 970.

(** [float(z)] for an int [z]. *)
Definition to_float (z : Z) : result R :=
  if (Z.abs z <? float_limit)%Z then Ok (IZR z) else Raise OverflowError.

(** [b ** e] for an integer base [b <> 0]: a negative exponent converts
    base and exponent to floats first. *)
Definition ipow_checked (b e : Z) : result num :=
  if (0 <=? e)%Z then Ok (Int (b ^ e))
  else
    _ <- to_float b ;;
    _ <- to_float e ;;
    Ok (Float (/ IZR (b ^ (- e)))).

(** [a * b]: an int operand of a float is converted. *)
Definition num_mul_checked (a b : num) : result num :=
  match a, b with
  | Int x, Int y => Ok (Int (x * y))
  | Int x, Float y => fx <- to_float x ;; Ok (Float (fx * y))
  | Int x, NaN => _ <- to_float x ;; Ok NaN
  | Float x, Int y => fy <- to_float y ;; Ok (Float (x * fy))
  | NaN, Int y => _ <- to_float y ;; Ok NaN
  | Float x, Float y => Ok (Float (x * y))
  | NaN, _ | _, NaN => Ok NaN
  end.

(** [x / d] for a float [x]: an int divisor is converted. *)
Definition num_fdiv_checked (x : R) (d : num) : result num :=
  match d with
  | NaN => Ok NaN
  | Int z => fz <- to_float z ;; r <- fdiv x fz ;; Ok (Float r)
  | Float y => r <- fdiv x y ;; Ok (Float r)
  end.

(** [write_summary(n_sides, side_len, depth, points, out_path)] with the
    conversions checked. *)
Definition write_summary_checked (n_sides : Z) (side_len : R) (depth : Z)
  (points : list point) : result summary :=
  p4 <- ipow_checked 4 depth ;;
  segments <- num_mul_checked (Int n_sides) p4 ;;
  seg_len <- (if (0 <=? depth)%Z
              then p3 <- ipow_checked 3 depth ;; num_fdiv_checked side_len p3
              else Ok NaN) ;;
  perimeter <- num_mul_checked segments seg_len ;;
  Ok {| segments := segments; seg_len := seg_len;
        perimeter := perimeter; points_written := len points |}.

(** ** Notions the specification speaks in *)

(** Euclidean distance between two points. *)
Definition dist (p q : point) : R :=
  sqrt ((fst q - fst p) * (fst q - fst p) + (snd q - snd p) * (snd q - snd p)).

(** Vector operations on points. *)
Definition vadd (p u : point) : point := (fst p + fst u, snd p + snd u).
Definition vsub (p q : point) : point := (fst p - fst q, snd p - snd q).
Definition vscale (t : R) (u : point) : point := (t * fst u, t * snd u).
Definition vdiv (u : point) (t : R) : point := (fst u / t, snd u / t).

(** Counter-clockwise rotation of a vector by the angle [theta]. *)
Definition rotate (theta : R) (u : point) : point :=
  (fst u * cos theta - snd u * sin theta,
   fst u * sin theta + snd u * cos theta).

(** Counter-clockwise rotation by 60 degrees. *)
Definition rot60 : point -> point := rotate (PI / 3).

(** The Koch replacement as the specification writes it: the trisection
    points [a] and [b], and the apex [peak]. *)
Definition spec_a (p0 p1 : point) : point := vadd p0 (vdiv (vsub p1 p0) 3).
Definition spec_b (p0 p1 : point) : point :=
  vadd p0 (vdiv (vscale 2 (vsub p1 p0)) 3).
Definition spec_peak (p0 p1 : point) : point :=
  vadd (spec_a p0 p1) (rot60 (vdiv (vsub p1 p0) 3)).

(** Every consecutive pair of [pts] is at distance [d]. *)
Definition edges_have_length (pts : list point) (d : R) : Prop :=
  forall (i : nat) (p q : point),
    nth_error pts i = Some p -> nth_error pts (S i) = Some q -> dist p q = d.

(** First and last point exist and are equal: [pts[0] == pts[-1]]. *)
Definition closed (pts : list point) : Prop :=
  exists p, index pts 0 = Ok p /\ index pts (-1) = Ok p.

(** Vertex [k] of the regular [n]-gon of side [s], as the specification
    writes it. *)
Definition circumradius (n : Z) (s : R) : R := s / (2 * sin (PI / IZR n)).

Definition vertex (n : Z) (s : R) (k : Z) : point :=
  (circumradius n s * cos (2 * PI * IZR k / IZR n),
   circumradius n s * sin (2 * PI * IZR k / IZR n)).

(** The three new points of the Koch replacement of the segment from
    [(x0, y0)] to [(x1, y1)], with the arithmetic of [koch_subdivide]. *)
Definition koch_a (p0 p1 : point) : point :=
  (fst p0 + (fst p1 - fst p0) / 3, snd p0 + (snd p1 - snd p0) / 3).

Definition koch_b (p0 p1 : point) : point :=
  (fst p0 + 2 * (fst p1 - fst p0) / 3, snd p0 + 2 * (snd p1 - snd p0) / 3).

Definition koch_peak (p0 p1 : point) : point :=
  (fst (koch_a p0 p1) + (fst p1 - fst p0) / 3 * 0.5
     - (snd p1 - snd p0) / 3 * (sqrt 3 / 2),
   snd (koch_a p0 p1) + (fst p1 - fst p0) / 3 * (sqrt 3 / 2)
     + (snd p1 - snd p0) / 3 * 0.5).

(** The points that one pass of [koch_iter]'s loop collects: four per
    edge of [pts]. *)
Fixpoint koch_edges (pts : list point) : list point :=
  match pts with
  | p0 :: (p1 :: _) as rest =>
      p0 :: koch_a p0 p1 :: koch_peak p0 p1 :: koch_b p0 p1 :: koch_edges rest
  | _ => []
  end.

(** [edges_have_length], by recursion on the list. *)
Fixpoint chain (d : R) (pts : list point) : Prop :=
  match pts with
  | p :: (q :: _) as rest => dist p q = d /\ chain d rest
  | _ => True
  end.

(** The loop of the regular [n]-gon of side [s]. *)
Definition polygon (n : Z) (s : R) : list point :=
  map (vertex n s) (range n) ++ [vertex n s 0].

(** Squared Euclidean distance. *)
Definition sqdist (p q : point) : R :=
  (fst q - fst p) * (fst q - fst p) + (snd q - snd p) * (snd q - snd p).

(** A closed loop from [p0] back to [p0] with [m] edges. *)
Definition is_loop (p0 : point) (m : nat) (pts : list point) : Prop :=
  (exists mid, pts = p0 :: mid ++ [p0]) /\ length pts = S m.

(** ** Further notions for the properties of the code *)

(** Length of the polyline through [pts]: the sum of its edge lengths. *)
Fixpoint path_length (pts : list point) : R :=
  match pts with
  | p :: (q :: _) as rest => dist p q + path_length rest
  | _ => 0
  end.

(** The z component of the cross product of two plane vectors. *)
Definition cross (u v : point) : R := fst u * snd v - snd u * fst v.

(** [q] lies strictly to the left of the directed line from [p0] to [p1]. *)
Definition left_of (p0 p1 q : point) : Prop :=
  0 < cross (vsub p1 p0) (vsub q p0).

Definition origin : point := (0, 0).

(** A polyline that is not closed, to try the functions on. *)
Definition open_path : list point := [(0, 0); (3, 0); (3, 3)].

(** The map [p |-> c * p + t] of the plane. *)
Definition affine (c : R) (t : point) (p : point) : point :=
  vadd (vscale c p) t.

(** ** The command-line program

    [main] and its helpers talk to the terminal and the file system.  A run
    is modelled by the lines waiting on standard input, the events it
    produces in order, and how it ends.  File operations are taken to
    succeed; [argparse] has already turned the command line into [args]. *)

(** The three questions of [main]:
    "Enter number of sides (>=3): ", "Enter side length (e.g., 1.0): ",
    "Enter recursion depth (>=0): ". *)
Inductive prompt : Set := AskSides | AskLength | AskDepth.

(** "koch_points.txt", "koch_summary.txt", "koch_plot.png". *)
Inductive file : Set := PointsFile | SummaryFile | PlotFile.

(** The lines the program prints: "Invalid input. Try again.",
    "Number of sides must be >= 3", "Depth must be >= 0", "Wrote <path>",
    and the notice that matplotlib is missing. *)
Inductive message : Type :=
| InvalidInput
| SidesTooSmall
| DepthNegative
| Wrote (dir : String.string) (f : file)
| PlotSkipped.

Inductive event : Type :=
| Ask (p : prompt)
| Print (m : message)
| MakeDirs (dir : String.string)
| WritePoints (dir : String.string) (points : list point)
| WriteSummary (dir : String.string) (n_sides : Z) (side_len : R) (depth : Z)
    (rep : summary)
| SavePng (dir : String.string) (points : list point).

(** How a run ends: normally, by [sys.exit(code)], by an exception nobody
    catches, or never (a prompt loop that keeps failing). *)
Inductive outcome (A : Type) : Type :=
| Done (a : A)
| Exited (code : Z)
| Uncaught (e : exn)
| Hangs.

Arguments Done {A} a.
Arguments Exited {A} code.
Arguments Uncaught {A} e.
Arguments Hangs {A}.

(** A computation reads lines and returns the events, the outcome and the
    lines left. *)
Definition io (A : Type) : Type :=
  list String.string -> list event * outcome A * list String.string.

Definition io_ret {A : Type} (a : A) : io A := fun inp => ([], Done a, inp).

Definition io_bind {A B : Type} (m : io A) (k : A -> io B) : io B :=
  fun inp =>
    let '(ev1, o, inp1) := m inp in
    match o with
    | Done a => let '(ev2, o2, inp2) := k a inp1 in (ev1 ++ ev2, o2, inp2)
    | Exited c => (ev1, Exited c, inp1)
    | Uncaught e => (ev1, Uncaught e, inp1)
    | Hangs => (ev1, Hangs, inp1)
    end.

Notation "x <<- m ;; k" := (io_bind m (fun x => k))
  (at level 61, m at next level, right associativity).

Definition emit (e : event) : io unit := fun inp => ([e], Done tt, inp).

Definition sys_exit {A : Type} (code : Z) : io A :=
  fun inp => ([], Exited code, inp).

(** A call into the core: an exception it raises is not caught. *)
Definition call {A : Type} (r : result A) : io A :=
  fun inp => match r with
             | Ok a => ([], Done a, inp)
             | Raise e => ([], Uncaught e, inp)
             end.

Record args : Type := {
  arg_sides : option Z;
  arg_length : option R;
  arg_depth : option Z;
  arg_outdir : String.string;
  arg_no_plot : bool
}.

Section Program.

(** [int(s.strip())] and [float(s.strip())] on an input line: the value,
    or [None] where Python raises [ValueError]. *)
Variable parse_int : String.string -> option Z.
Variable parse_float : String.string -> option R.

(** [v < min_val] when a minimum is given. *)
Definition below (min_val : option Z) (v : Z) : bool :=
  match min_val with
  | Some m => (v <? m)%Z
  | None => false
  end.

(** A line that [prompt_int] with minimum [m] does not accept. *)
Definition rejected (m : Z) (line : String.string) : Prop :=
  match parse_int line with
  | Some v => (v < m)%Z
  | None => True
  end.

(** [prompt_int(prompt, min_val)].  Every failure inside the [try],
    the [EOFError] of [input] at the end of the input included, is caught
    and the loop goes on: with no line left it never ends. *)
Fixpoint prompt_int (p : prompt) (min_val : option Z)
  (inp : list String.string) : list event * outcome Z * list String.string :=
  match inp with
  | [] => ([Ask p; Print InvalidInput], Hangs, [])
  | line :: rest =>
      match parse_int line with
      | Some v =>
          if below min_val v
          then let '(ev, o, inp') := prompt_int p min_val rest in
               (Ask p :: Print InvalidInput :: ev, o, inp')
          else ([Ask p], Done v, rest)
      | None =>
          let '(ev, o, inp') := prompt_int p min_val rest in
          (Ask p :: Print InvalidInput :: ev, o, inp')
      end
  end.

(** [prompt_float(prompt)] *)
Fixpoint prompt_float (p : prompt) (inp : list String.string)
  : list event * outcome R * list String.string :=
  match inp with
  | [] => ([Ask p; Print InvalidInput], Hangs, [])
  | line :: rest =>
      match parse_float line with
      | Some v => ([Ask p], Done v, rest)
      | None =>
          let '(ev, o, inp') := prompt_float p rest in
          (Ask p :: Print InvalidInput :: ev, o, inp')
      end
  end.

(** [save_plot(points, out_path)]; [has_matplotlib] tells whether the
    import inside succeeds. *)
Definition save_plot (has_matplotlib : bool) (dir : String.string)
  (points : list point) : io unit :=
  if has_matplotlib
  then _ <<- emit (SavePng dir points) ;; emit (Print (Wrote dir PlotFile))
  else emit (Print PlotSkipped).

(** [main()] *)
Definition main (a : args) (has_matplotlib : bool) : io unit :=
  n_sides <<- match arg_sides a with
              | None => prompt_int AskSides (Some 3%Z)
              | Some n =>
                  if (n <? 3)%Z
                  then _ <<- emit (Print SidesTooSmall) ;; sys_exit 1
                  else io_ret n
              end ;;
  side_len <<- match arg_length a with
               | None => prompt_float AskLength
               | Some l => io_ret l
               end ;;
  depth <<- match arg_depth a with
            | None => prompt_int AskDepth (Some 0%Z)
            | Some d =>
                if (d <? 0)%Z
                then _ <<- emit (Print DepthNegative) ;; sys_exit 1
                else io_ret d
            end ;;
  let outdir := arg_outdir a in
  _ <<- emit (MakeDirs outdir) ;;
  pts <<- call (generate_fractal n_sides side_len depth) ;;
  _ <<- emit (WritePoints outdir pts) ;;
  rep <<- call (write_summary n_sides side_len depth pts) ;;
  _ <<- emit (WriteSummary outdir n_sides side_len depth rep) ;;
  _ <<- emit (Print (Wrote outdir PointsFile)) ;;
  _ <<- emit (Print (Wrote outdir SummaryFile)) ;;
  if arg_no_plot a then io_ret tt
  else save_plot has_matplotlib outdir pts.

End Program.




(** A parser of unsigned decimal numbers and a few input lines, to run
    the prompts on. *)
Module Sample.
Import String Ascii.

Definition digit (c : ascii) : option Z :=
  let n := Z.of_N (N_of_ascii c) in
  if ((48 <=? n) && (n <=? 57))%Z then Some (n - 48)%Z else None.

Fixpoint digits (acc : Z) (s : string) : option Z :=
  match s with
  | EmptyString => Some acc
  | String c rest =>
      match digit c with
      | Some d => digits (10 * acc + d)%Z rest
      | None => None
      end
  end.

Definition parse_int (s : string) : option Z :=
  match s with
  | EmptyString => None
  | _ => digits 0 s
  end.

Definition parse_float (s : string) : option R := option_map IZR (parse_int s).

Definition line_word : string := "six"%string.
Definition line_2 : string := "2"%string.
Definition line_6 : string := "6"%string.
Definition line_15 : string := "15"%string.
Definition outdir : string := "out"%string.

Definition args_two_sides : args :=
  {| arg_sides := Some 2%Z; arg_length := None; arg_depth := None;
     arg_outdir := outdir; arg_no_plot := false |}.

Definition args_negative_depth : args :=
  {| arg_sides := Some 5%Z; arg_length := None; arg_depth := Some (-1)%Z;
     arg_outdir := outdir; arg_no_plot := false |}.

End Sample.

(** ** The substitution cipher ("Q1 encrypt,decrypt,verify.py")

    A character is its Unicode code point and a text is the list of its
    characters.  A dictionary is the list of its items in insertion order.
    A file is the text that reading it yields, and the file system maps
    paths to files. *)

Module Alphabet.
Import String Ascii.

Definition of_literal (s : string) : list N :=
  List.map N_of_ascii (list_ascii_of_string s).

(** [string.ascii_lowercase] and [string.ascii_uppercase] *)
Definition lowercase : list N := of_literal "abcdefghijklmnopqrstuvwxyz".
Definition uppercase : list N := of_literal "ABCDEFGHIJKLMNOPQRSTUVWXYZ".

(** The fixed paths of [main]. *)
Definition in_path : string := "raw_text.txt".
Definition enc_path : string := "encrypted_text.txt".
Definition dec_path : string := "decrypted_text.txt".

End Alphabet.

Module Cipher.

Definition char : Type := N.
Definition str : Type := list char.

Definition LOWER : str := Alphabet.lowercase.
Definition UPPER : str := Alphabet.uppercase.
Definition LOWER_FIRST : str := firstn 13 LOWER.
Definition LOWER_SECOND : str := skipn 13 LOWER.
Definition UPPER_FIRST : str := firstn 13 UPPER.
Definition UPPER_SECOND : str := skipn 13 UPPER.

(** Position of the first occurrence of [ch]. *)
Fixpoint find (ch : char) (s : str) : option nat :=
  match s with
  | [] => None
  | c :: rest => if N.eqb c ch then Some 0%nat else option_map S (find ch rest)
  end.

(** [s.index(ch)]: raises [ValueError] when [ch] does not occur. *)
Definition str_index (s : str) (ch : char) : result Z :=
  match find ch s with
  | Some i => Ok (Z.of_nat i)
  | None => Raise ValueError
  end.

(** [a % n] on integers. *)
Definition imod (a n : Z) : result Z :=
  if (n =? 0)%Z then Raise ZeroDivisionError else Ok (a mod n)%Z.

(** [_shift_within_group(ch, shift, group)] *)
Definition _shift_within_group (ch : char) (shift : Z) (group : str)
  : result char :=
  let n := len group in
  i <- str_index group ch ;;
  j <- imod (i + shift) n ;;
  index group j.

Definition dict : Type := list (char * char).

(** [d[k] = v]: replaces the value of an existing key in place, appends a
    new key. *)
Fixpoint dict_set (k v : char) (d : dict) : dict :=
  match d with
  | [] => [(k, v)]
  | (k', v') :: rest =>
      if N.eqb k' k then (k', v) :: rest else (k', v') :: dict_set k v rest
  end.

(** [d.get(k)] *)
Fixpoint dict_get (d : dict) (k : char) : option char :=
  match d with
  | [] => None
  | (k', v') :: rest => if N.eqb k' k then Some v' else dict_get rest k
  end.

(** One of the four loops of [build_maps]. *)
Definition fill (group : str) (shift : Z) (enc_map : dict) : result dict :=
  for_ group
    (fun ch enc_map =>
       v <- _shift_within_group ch shift group ;;
       Ok (dict_set ch v enc_map))
    enc_map.

(** [build_maps(shift1, shift2)] *)
Definition build_maps (shift1 shift2 : Z) : result (dict * dict) :=
  let enc_map : dict := [] in
  let k_low_first := (shift1 * shift2)%Z in
  let k_low_second := (- (shift1 + shift2))%Z in
  enc_map <- fill LOWER_FIRST k_low_first enc_map ;;
  enc_map <- fill LOWER_SECOND k_low_second enc_map ;;
  let k_up_first := (- shift1)%Z in
  let k_up_second := (shift2 ^ 2)%Z in
  enc_map <- fill UPPER_FIRST k_up_first enc_map ;;
  enc_map <- fill UPPER_SECOND k_up_second enc_map ;;
  let dec_map := fold_left (fun d kv => dict_set (snd kv) (fst kv) d) enc_map [] in
  Ok (enc_map, dec_map).

(** [transform_text(text, mapping)] *)
Definition transform_text (text : str) (mapping : dict) : str :=
  map (fun ch => match dict_get mapping ch with
                 | Some v => v
                 | None => ch
                 end) text.

(** The file system, and how a file operation ends. *)
Definition path : Type := String.string.
Definition files : Type := path -> option str.

Definition write (fs : files) (p : path) (text : str) : files :=
  fun q => if String.eqb q p then Some text else fs q.

Inductive fresult (A : Type) : Type :=
| Finished (a : A)
| Raised (e : exn)
| FileNotFoundError (p : path).

Arguments Finished {A} a.
Arguments Raised {A} e.
Arguments FileNotFoundError {A} p.

(** [encrypt_file(input_path, output_path, shift1, shift2)]: the file
    system afterwards. *)
Definition encrypt_file (fs : files) (input_path output_path : path)
  (shift1 shift2 : Z) : fresult files :=
  match build_maps shift1 shift2 with
  | Raise e => Raised e
  | Ok (enc_map, _) =>
      match fs input_path with
      | None => FileNotFoundError input_path
      | Some plain =>
          let cipher := transform_text plain enc_map in
          Finished (write fs output_path cipher)
      end
  end.

(** [decrypt_file(input_path, output_path, shift1, shift2)] *)
Definition decrypt_file (fs : files) (input_path output_path : path)
  (shift1 shift2 : Z) : fresult files :=
  match build_maps shift1 shift2 with
  | Raise e => Raised e
  | Ok (_, dec_map) =>
      match fs input_path with
      | None => FileNotFoundError input_path
      | Some cipher =>
          let plain := transform_text cipher dec_map in
          Finished (write fs output_path plain)
      end
  end.

Definition str_eqb (a b : str) : bool :=
  if list_eq_dec N.eq_dec a b then true else false.

(** [verify_files(original_path, decrypted_path)] *)
Definition verify_files (fs : files) (original_path decrypted_path : path)
  : fresult bool :=
  match fs original_path with
  | None => FileNotFoundError original_path
  | Some t1 =>
      match fs decrypted_path with
      | None => FileNotFoundError decrypted_path
      | Some t2 => Finished (str_eqb t1 t2)
      end
  end.

(** "Hello, World!" *)
Definition hello : str :=
  [72; 101; 108; 108; 111; 44; 32; 87; 111; 114; 108; 100; 33]%N.

(** What [main] writes to the terminal: the two questions, "Invalid
    input. Please enter integers for shift1 and shift2.", "Encrypted ->
    encrypted_text.txt", "Decrypted -> decrypted_text.txt", "Verification:
    SUCCESS" or "Verification: FAILED", and "File not found: ...". *)
Inductive message : Type :=
| AskShift1
| AskShift2
| InvalidShifts
| Encrypted
| Decrypted
| Verification (ok : bool)
| FileNotFound (p : path).

(** The [try] block of [main] that works on the files. *)
Definition run (fs : files) (shift1 shift2 : Z)
  : list message * outcome unit * files :=
  match encrypt_file fs Alphabet.in_path Alphabet.enc_path shift1 shift2 with
  | Raised e => ([], Uncaught e, fs)
  | FileNotFoundError p => ([FileNotFound p], Exited 1, fs)
  | Finished fs1 =>
      match decrypt_file fs1 Alphabet.enc_path Alphabet.dec_path shift1 shift2 with
      | Raised e => ([Encrypted], Uncaught e, fs1)
      | FileNotFoundError p => ([Encrypted; FileNotFound p], Exited 1, fs1)
      | Finished fs2 =>
          match verify_files fs2 Alphabet.in_path Alphabet.dec_path with
          | Raised e => ([Encrypted; Decrypted], Uncaught e, fs2)
          | FileNotFoundError p =>
              ([Encrypted; Decrypted; FileNotFound p], Exited 1, fs2)
          | Finished ok =>
              ([Encrypted; Decrypted; Verification ok], Done tt, fs2)
          end
      end
  end.

(** [main()]: [parse_int] is [int(s.strip())]; a line that does not parse
    and the end of the input both end in the first [except]. *)
Definition main (parse_int : String.string -> option Z) (fs : files)
  (inp : list String.string) : list message * outcome unit * files :=
  match inp with
  | [] => ([AskShift1; InvalidShifts], Exited 1, fs)
  | line1 :: inp' =>
      match parse_int line1 with
      | None => ([AskShift1; InvalidShifts], Exited 1, fs)
      | Some shift1 =>
          match inp' with
          | [] => ([AskShift1; AskShift2; InvalidShifts], Exited 1, fs)
          | line2 :: _ =>
              match parse_int line2 with
              | None => ([AskShift1; AskShift2; InvalidShifts], Exited 1, fs)
              | Some shift2 =>
                  let '(out, o, fs') := run fs shift1 shift2 in
                  (AskShift1 :: AskShift2 :: out, o, fs')
              end
          end
      end
  end.


(** The 52 letters, in the order [build_maps] inserts them. *)
Definition letters : str :=
  LOWER_FIRST ++ LOWER_SECOND ++ UPPER_FIRST ++ UPPER_SECOND.

(** The character that [_shift_within_group] returns for a character of
    the group, as a plain function. *)
Definition shift_char (group : str) (shift : Z) (ch : char) : char :=
  match find ch group with
  | Some i => nth (Z.to_nat ((Z.of_nat i + shift) mod len group)) group ch
  | None => ch
  end.

(** The items one loop of [build_maps] adds. *)
Definition group_items (group : str) (shift : Z) : dict :=
  map (fun ch => (ch, shift_char group shift ch)) group.

(** The encryption dictionary as a list of items. *)
Definition enc_items (shift1 shift2 : Z) : dict :=
  group_items LOWER_FIRST (shift1 * shift2)
  ++ group_items LOWER_SECOND (- (shift1 + shift2))
  ++ group_items UPPER_FIRST (- shift1)
  ++ group_items UPPER_SECOND (shift2 ^ 2).

Definition swap (kv : char * char) : char * char := (snd kv, fst kv).

(** A group rotated to the left by [r] places. *)
Definition rotl (r : nat) (group : str) : str := skipn r group ++ firstn r group.

(** [group] is one of the four 13-letter groups. *)
Definition is_group (group : str) : Prop :=
  group = LOWER_FIRST \/ group = LOWER_SECOND
  \/ group = UPPER_FIRST \/ group = UPPER_SECOND.

End Cipher.

(** ** The error monad and the loops *)

Lemma bind_Ok_r {A : Type} (m : result A) : bind m Ok = m.
Proof. destruct m; reflexivity. Qed.

Lemma fdiv_ok (x y : R) : y <> 0 -> fdiv x y = Ok (x / y).
Proof.
  intros Hy. unfold fdiv. destruct (Req_EM_T y 0) as [E | _].
  - contradiction.
  - reflexivity.
Qed.

Lemma range_nonpos (n : Z) : (n <= 0)%Z -> range n = [].
Proof.
  intros Hn. unfold range.
  replace (Z.to_nat n) with 0%nat by lia. reflexivity.
Qed.

Lemma range_length (n : Z) : length (range n) = Z.to_nat n.
Proof. unfold range. now rewrite length_map, length_seq. Qed.

Lemma range_nth (n : Z) (i : nat) :
  (Z.of_nat i < n)%Z -> nth_error (range n) i = Some (Z.of_nat i).
Proof.
  intros Hi. unfold range.
  rewrite nth_error_map, nth_error_seq.
  destruct (Nat.ltb_spec i (Z.to_nat n)); [reflexivity | lia].
Qed.

(** A loop whose body appends one value per item builds a [map]. *)
Lemma for_append_map {I A : Type} (f : I -> A) (body : I -> list A -> result (list A)) :
  forall (items : list I) (acc : list A),
    (forall i acc', In i items -> body i acc' = Ok (acc' ++ [f i])) ->
    for_ items body acc = Ok (acc ++ map f items).
Proof.
  induction items as [| i rest IH]; intros acc Hbody; simpl.
  - now rewrite app_nil_r.
  - rewrite Hbody by now left. simpl.
    rewrite IH by (intros; apply Hbody; now right).
    now rewrite <- app_assoc.
Qed.

Lemma index_0_cons {A : Type} (a : A) (l : list A) : index (a :: l) 0 = Ok a.
Proof. reflexivity. Qed.

Lemma index_nat {A : Type} (l : list A) (i : nat) (a : A) :
  nth_error l i = Some a -> index l (Z.of_nat i) = Ok a.
Proof.
  intros H. unfold index.
  destruct (Z.ltb_spec (Z.of_nat i) 0); [lia |].
  destruct (Z.ltb_spec (Z.of_nat i) 0); [lia |].
  now rewrite Nat2Z.id, H.
Qed.

Lemma index_last {A : Type} (l : list A) (a : A) : index (l ++ [a]) (-1) = Ok a.
Proof.
  unfold index, len. rewrite length_app. simpl length.
  destruct (Z.ltb_spec (-1) 0); [| lia].
  destruct (Z.ltb_spec (-1 + Z.of_nat (length l + 1)) 0); [lia |].
  replace (Z.to_nat (-1 + Z.of_nat (length l + 1))) with (length l) by lia.
  now rewrite nth_error_app2, Nat.sub_diag by lia.
Qed.

(** ** [koch_subdivide] *)

Lemma koch_subdivide_eq (p0 p1 : point) :
  koch_subdivide p0 p1
  = Ok [p0; koch_a p0 p1; koch_peak p0 p1; koch_b p0 p1; p1].
Proof.
  destruct p0 as [x0 y0], p1 as [x1 y1].
  unfold koch_subdivide, koch_a, koch_peak, koch_b.
  rewrite !fdiv_ok by lra. reflexivity.
Qed.

(** ** Distances *)

(** Equality of results holding point lists, down to the coordinates. *)
Ltac points_eq :=
  repeat match goal with
         | |- Ok _ = Ok _ => f_equal
         | |- _ :: _ = _ :: _ => f_equal
         | |- (_, _) = (_, _) => f_equal
         end.

Lemma sqdist_nonneg (p q : point) : 0 <= sqdist p q.
Proof.
  unfold sqdist.
  generalize (fst q - fst p), (snd q - snd p). intros u v. nra.
Qed.

Lemma dist_sqdist (p q : point) : dist p q = sqrt (sqdist p q).
Proof. reflexivity. Qed.

(** A segment whose squared length is a ninth of another's is a third as
    long. *)
Lemma dist_third (p q p0 p1 : point) :
  9 * sqdist p q = sqdist p0 p1 -> dist p q = dist p0 p1 / 3.
Proof.
  intros H. rewrite !dist_sqdist, <- H.
  replace (9 * sqdist p q) with (sqdist p q * (3 * 3)) by ring.
  rewrite sqrt_mult_alt by apply sqdist_nonneg.
  rewrite sqrt_square by lra. field.
Qed.

(** The literal [0.5] of [koch_subdivide] is one half. *)
Lemma cos60_half : 0.5 = 1 / 2.
Proof. lra. Qed.

Lemma sqrt3_sq : sqrt 3 * sqrt 3 = 3.
Proof. apply sqrt_sqrt. lra. Qed.

Lemma dist_p0_a (p0 p1 : point) : dist p0 (koch_a p0 p1) = dist p0 p1 / 3.
Proof.
  apply dist_third. destruct p0, p1. unfold sqdist, koch_a. simpl. field.
Qed.

Lemma dist_a_peak (p0 p1 : point) :
  dist (koch_a p0 p1) (koch_peak p0 p1) = dist p0 p1 / 3.
Proof.
  apply dist_third. destruct p0 as [x0 y0], p1 as [x1 y1].
  unfold sqdist, koch_peak, koch_a. simpl. rewrite cos60_half.
  pose proof sqrt3_sq as Hs. set (s := sqrt 3) in *.
  transitivity ((1 / 4 + s * s / 4) * ((x1 - x0) * (x1 - x0) + (y1 - y0) * (y1 - y0))).
  - field.
  - rewrite Hs. field.
Qed.

Lemma dist_peak_b (p0 p1 : point) :
  dist (koch_peak p0 p1) (koch_b p0 p1) = dist p0 p1 / 3.
Proof.
  apply dist_third. destruct p0 as [x0 y0], p1 as [x1 y1].
  unfold sqdist, koch_peak, koch_a, koch_b. simpl. rewrite cos60_half.
  pose proof sqrt3_sq as Hs. set (s := sqrt 3) in *.
  transitivity ((1 / 4 + s * s / 4) * ((x1 - x0) * (x1 - x0) + (y1 - y0) * (y1 - y0))).
  - field.
  - rewrite Hs. field.
Qed.

Lemma dist_b_p1 (p0 p1 : point) : dist (koch_b p0 p1) p1 = dist p0 p1 / 3.
Proof.
  apply dist_third. destruct p0, p1. unfold sqdist, koch_b. simpl. field.
Qed.

(** ** [koch_iter] *)

Lemma index_app_mid {A : Type} (pre : list A) (a : A) (post : list A) :
  index (pre ++ a :: post) (Z.of_nat (length pre)) = Ok a.
Proof.
  apply index_nat. now rewrite nth_error_app2, Nat.sub_diag by lia.
Qed.

Lemma koch_edges_cons (p0 p1 : point) (rest : list point) :
  koch_edges (p0 :: p1 :: rest)
  = p0 :: koch_a p0 p1 :: koch_peak p0 p1 :: koch_b p0 p1
      :: koch_edges (p1 :: rest).
Proof. reflexivity. Qed.

(** The index loop of [koch_iter], started at edge [length pre] of
    [pre ++ pts], collects [koch_edges pts]. *)
Lemma koch_loop (pts : list point) :
  forall (pre acc : list point),
    for_ (map Z.of_nat (seq (length pre) (length pts - 1)))
      (fun i new_pts =>
         p0 <- index (pre ++ pts) i ;;
         p1 <- index (pre ++ pts) (i + 1) ;;
         seg_points <- koch_subdivide p0 p1 ;;
         Ok (new_pts ++ removelast seg_points))
      acc
    = Ok (acc ++ koch_edges pts).
Proof.
  induction pts as [| p0 rest IH]; intros pre acc.
  - simpl. now rewrite app_nil_r.
  - destruct rest as [| p1 rest].
    + simpl. now rewrite app_nil_r.
    + replace (length (p0 :: p1 :: rest) - 1)%nat with (S (length rest)) by (simpl; lia).
      cbn [seq map for_].
      rewrite index_app_mid.
      replace (Z.of_nat (length pre) + 1)%Z with (Z.of_nat (length (pre ++ [p0])))
        by (rewrite length_app; simpl; lia).
      replace (pre ++ p0 :: p1 :: rest) with ((pre ++ [p0]) ++ p1 :: rest)
        by now rewrite <- app_assoc.
      rewrite index_app_mid.
      cbn [bind]. rewrite koch_subdivide_eq. cbn [bind removelast].
      specialize (IH (pre ++ [p0]) (acc ++ [p0; koch_a p0 p1; koch_peak p0 p1; koch_b p0 p1])).
      replace (length (p1 :: rest) - 1)%nat with (length rest) in IH by (simpl; lia).
      replace (S (length pre)) with (length (pre ++ [p0]))
        by (rewrite length_app; simpl; lia).
      rewrite IH, koch_edges_cons. now rewrite <- app_assoc.
Qed.

Lemma koch_iter_loop (points : list point) :
  for_ (range (len points - 1))
    (fun i new_pts =>
       p0 <- index points i ;;
       p1 <- index points (i + 1) ;;
       seg_points <- koch_subdivide p0 p1 ;;
       Ok (new_pts ++ removelast seg_points))
    []
  = Ok (koch_edges points).
Proof.
  unfold range, len.
  replace (Z.to_nat (Z.of_nat (length points) - 1)) with (length points - 1)%nat by lia.
  exact (koch_loop points [] []).
Qed.

(** On a list of at least two points [koch_iter] returns the collected
    points followed by the first of them, which is the first input point. *)
Lemma koch_iter_eq (p0 p1 : point) (rest : list point) :
  koch_iter (p0 :: p1 :: rest)
  = Ok (koch_edges (p0 :: p1 :: rest) ++ [p0]).
Proof.
  unfold koch_iter. rewrite koch_iter_loop. reflexivity.
Qed.

(** With fewer than two points there is no edge, and [new_pts[0]] raises. *)
Lemma koch_iter_short (points : list point) :
  (length points <= 1)%nat -> koch_iter points = Raise IndexError.
Proof.
  intros H. unfold koch_iter. rewrite koch_iter_loop.
  destruct points as [| p [| q rest]]; [reflexivity | reflexivity | simpl in H; lia].
Qed.

Lemma koch_edges_length (pts : list point) :
  length (koch_edges pts) = (4 * (length pts - 1))%nat.
Proof.
  induction pts as [| p0 [| p1 rest] IH]; [reflexivity | reflexivity |].
  rewrite koch_edges_cons. cbn [length] in *. rewrite IH. lia.
Qed.

(** ** Edge lengths along a point sequence *)

Lemma chain_cons (d : R) (p q : point) (rest : list point) :
  chain d (p :: q :: rest) <-> dist p q = d /\ chain d (q :: rest).
Proof. reflexivity. Qed.

Lemma chain_edges (d : R) (pts : list point) :
  chain d pts <-> edges_have_length pts d.
Proof.
  unfold edges_have_length. split.
  - induction pts as [| p [| q rest] IH]; intros Hc i a b Ha Hb.
    + now destruct i.
    + destruct i as [| [| i]]; discriminate.
    + apply chain_cons in Hc. destruct Hc as [Hpq Hc].
      destruct i as [| i].
      * simpl in Ha, Hb. congruence.
      * exact (IH Hc i a b Ha Hb).
  - induction pts as [| p [| q rest] IH]; intros H; [exact I | exact I |].
    apply chain_cons. split.
    + exact (H 0%nat p q eq_refl eq_refl).
    + apply IH. intros i a b Ha Hb. exact (H (S i) a b Ha Hb).
Qed.

(** The collected points start where the input starts. *)
Lemma koch_edges_hd (pts : list point) (lst : point) :
  exists tl, koch_edges (pts ++ [lst]) ++ [lst] = hd lst (pts ++ [lst]) :: tl.
Proof.
  destruct pts as [| p [| q rest]]; cbn [app].
  - now exists [].
  - rewrite koch_edges_cons. cbn [hd app]. eexists. reflexivity.
  - rewrite koch_edges_cons. cbn [hd app]. eexists. reflexivity.
Qed.

(** One pass over a sequence with edges of length [d], re-closed with the
    sequence's last point, has edges of length [d / 3]. *)
Lemma chain_koch_edges (d : R) (lst : point) (pts : list point) :
  chain d (pts ++ [lst]) ->
  chain (d / 3) (koch_edges (pts ++ [lst]) ++ [lst]).
Proof.
  induction pts as [| p0 pts IH]; intros Hc.
  - exact I.
  - specialize (koch_edges_hd pts lst) as [tl Htl].
    remember (pts ++ [lst]) as rest eqn:Hrest.
    destruct rest as [| p1 rest].
    + destruct pts; discriminate.
    + cbn [app] in Hc |- *. rewrite <- Hrest in Hc |- *.
      apply chain_cons in Hc. destruct Hc as [Hd Hc].
      specialize (IH Hc). rewrite koch_edges_cons. cbn [app].
      rewrite Htl in IH |- *. cbn [hd] in IH |- *.
      repeat (apply chain_cons; split); try exact IH; subst d.
      * apply dist_p0_a.
      * apply dist_a_peak.
      * apply dist_peak_b.
      * apply dist_b_p1.
Qed.

(** ** [regular_polygon] *)

Lemma IZR_sides_pos (n : Z) : (3 <= n)%Z -> 0 < IZR n.
Proof. intros H. apply (IZR_lt 0). lia. Qed.

Lemma sin_pi_sides_pos (n : Z) : (3 <= n)%Z -> 0 < sin (PI / IZR n).
Proof.
  intros H. pose proof PI_RGT_0 as Hpi.
  assert (Hn : 3 <= IZR n) by now apply (IZR_le 3).
  apply sin_gt_0.
  - apply Rdiv_lt_0_compat; lra.
  - apply (Rmult_lt_reg_r (IZR n)); [lra |].
    unfold Rdiv. rewrite Rmult_assoc, Rinv_l by lra. nra.
Qed.

Lemma range_pos (n : Z) :
  (0 < n)%Z -> range n = 0%Z :: map Z.of_nat (seq 1 (Z.to_nat n - 1)).
Proof.
  intros H. unfold range.
  replace (Z.to_nat n) with (S (Z.to_nat n - 1)) at 1 by lia. reflexivity.
Qed.

(** Fewer than three sides: the guard raises before anything is built. *)
Lemma regular_polygon_small (n : Z) (s : R) :
  (n < 3)%Z -> regular_polygon n s = Raise ValueError.
Proof.
  intros H. unfold regular_polygon.
  destruct (Z.ltb_spec n 3); [reflexivity | lia].
Qed.

(** At least three sides: no division fails, and the loop builds the
    vertices in order. *)
Lemma regular_polygon_eq (n : Z) (s : R) :
  (3 <= n)%Z -> regular_polygon n s = Ok (polygon n s).
Proof.
  intros H. unfold regular_polygon, polygon.
  destruct (Z.ltb_spec n 3); [lia |].
  pose proof (IZR_sides_pos n H) as Hn.
  pose proof (sin_pi_sides_pos n H) as Hsin.
  rewrite fdiv_ok by lra. cbn [bind].
  rewrite fdiv_ok by lra. cbn [bind].
  rewrite (for_append_map (vertex n s)).
  - cbn [bind app]. rewrite (range_pos n) by lia. reflexivity.
  - intros k acc _. rewrite fdiv_ok by lra. reflexivity.
Qed.

Lemma polygon_length (n : Z) (s : R) :
  length (polygon n s) = S (Z.to_nat n).
Proof.
  unfold polygon. rewrite length_app, length_map, range_length. simpl. lia.
Qed.

Lemma polygon_nth (n : Z) (s : R) (i : nat) :
  (Z.of_nat i < n)%Z ->
  nth_error (polygon n s) i = Some (vertex n s (Z.of_nat i)).
Proof.
  intros H. unfold polygon.
  rewrite nth_error_app1 by (rewrite length_map, range_length; lia).
  now rewrite nth_error_map, range_nth.
Qed.

Lemma polygon_nth_last (n : Z) (s : R) :
  (0 <= n)%Z -> nth_error (polygon n s) (Z.to_nat n) = Some (vertex n s 0).
Proof.
  intros H. unfold polygon.
  rewrite nth_error_app2 by (rewrite length_map, range_length; lia).
  now rewrite length_map, range_length, Nat.sub_diag.
Qed.

(** Vertex 0 lies on the positive x axis, at the circumradius. *)
Lemma vertex_0 (n : Z) (s : R) : vertex n s 0 = (circumradius n s, 0).
Proof.
  unfold vertex.
  replace (2 * PI * 0 / IZR n) with 0 by (unfold Rdiv; ring).
  rewrite cos_0, sin_0. f_equal; ring.
Qed.

(** Going once around comes back to vertex 0. *)
Lemma vertex_sides (n : Z) (s : R) :
  (3 <= n)%Z -> vertex n s n = vertex n s 0.
Proof.
  intros H. pose proof (IZR_sides_pos n H) as Hn.
  rewrite vertex_0. unfold vertex.
  replace (2 * PI * IZR n / IZR n) with (2 * PI) by (field; lra).
  rewrite cos_2PI, sin_2PI. f_equal; ring.
Qed.

(** Two consecutive vertices are one side length apart. *)
Lemma dist_vertex_succ (n : Z) (s : R) (k : Z) :
  (3 <= n)%Z -> 0 < s -> dist (vertex n s k) (vertex n s (k + 1)) = s.
Proof.
  intros H Hs.
  pose proof (IZR_sides_pos n H) as Hn.
  pose proof (sin_pi_sides_pos n H) as Hsin.
  rewrite dist_sqdist.
  enough (E : sqdist (vertex n s k) (vertex n s (k + 1)) = s * s)
    by (rewrite E; apply sqrt_square; lra).
  unfold sqdist, vertex, circumradius. cbn [fst snd].
  replace (2 * PI * IZR (k + 1) / IZR n)
    with (2 * PI * IZR k / IZR n + 2 * (PI / IZR n))
    by (rewrite plus_IZR; field; lra).
  set (alpha := 2 * PI * IZR k / IZR n).
  set (delta := PI / IZR n) in *.
  rewrite cos_plus, sin_plus.
  pose proof (sin2_cos2 alpha) as Ha.
  pose proof (sin2_cos2 (2 * delta)) as Hd.
  pose proof (cos_2a_sin delta) as Hc.
  unfold Rsqr in Ha, Hd.
  set (c := cos alpha) in *. set (z := sin alpha) in *.
  set (C := cos (2 * delta)) in *. set (Z := sin (2 * delta)) in *.
  set (t := sin delta) in *.
  transitivity (s / (2 * t) * (s / (2 * t))
                * ((z * z + c * c) * ((Z * Z + C * C) - 2 * C + 1))).
  - field. lra.
  - rewrite Ha, Hd, Hc. field. lra.
Qed.

(** The base polygon is a loop of [n] edges from vertex 0. *)
Lemma polygon_is_loop (n : Z) (s : R) :
  (3 <= n)%Z -> is_loop (vertex n s 0) (Z.to_nat n) (polygon n s).
Proof.
  intros H. split.
  - unfold polygon. rewrite (range_pos n) by lia. cbn [map app].
    eexists. reflexivity.
  - apply polygon_length.
Qed.

(** Every edge of the base polygon has the requested side length. *)
Lemma polygon_chain (n : Z) (s : R) :
  (3 <= n)%Z -> 0 < s -> chain s (polygon n s).
Proof.
  intros H Hs. apply chain_edges. intros i a b Ha Hb.
  assert (Hi : (S i < length (polygon n s))%nat)
    by (apply nth_error_Some; congruence).
  rewrite polygon_length in Hi.
  rewrite polygon_nth in Ha by lia. injection Ha as <-.
  assert (Eb : b = vertex n s (Z.of_nat i + 1)).
  { destruct (Nat.eq_dec (S i) (Z.to_nat n)) as [E | N].
    - rewrite E, polygon_nth_last in Hb by lia. injection Hb as <-.
      replace (Z.of_nat i + 1)%Z with n by lia.
      symmetry. now apply vertex_sides.
    - rewrite polygon_nth in Hb by lia. injection Hb as <-.
      f_equal. lia. }
  subst b. now apply dist_vertex_succ.
Qed.

(** ** Iterating [koch_iter] *)

Lemma is_loop_closed (p0 : point) (m : nat) (pts : list point) :
  is_loop p0 m pts -> index pts 0 = Ok p0 /\ index pts (-1) = Ok p0.
Proof.
  intros [[mid ->] _]. split.
  - apply index_0_cons.
  - apply (index_last (p0 :: mid)).
Qed.

(** One pass keeps the loop closed at the same first point, multiplies
    the number of edges by four and divides every edge length by three. *)
Lemma koch_iter_is_loop (p0 : point) (m : nat) (pts : list point) :
  is_loop p0 m pts ->
  exists pts', koch_iter pts = Ok pts'
    /\ is_loop p0 (4 * m) pts'
    /\ forall d, chain d pts -> chain (d / 3) pts'.
Proof.
  intros [[mid ->] Hlen].
  destruct (mid ++ [p0]) as [| p1 rest] eqn:Hmid.
  { destruct mid; discriminate. }
  exists (koch_edges (p0 :: p1 :: rest) ++ [p0]).
  split; [apply koch_iter_eq |]. split; [split |].
  - rewrite koch_edges_cons.
    now exists (koch_a p0 p1 :: koch_peak p0 p1 :: koch_b p0 p1
                  :: koch_edges (p1 :: rest)).
  - rewrite length_app, koch_edges_length, Hlen. simpl. lia.
  - intros d Hd. rewrite <- Hmid in *.
    exact (chain_koch_edges d p0 (p0 :: mid) Hd).
Qed.

Lemma for_koch_iter {I : Type} (items : list I) :
  forall (p0 : point) (m : nat) (pts : list point),
    is_loop p0 m pts ->
    exists pts', for_ items (fun _ pts => koch_iter pts) pts = Ok pts'
      /\ is_loop p0 (m * 4 ^ length items) pts'
      /\ forall d, chain d pts -> chain (d / 3 ^ length items) pts'.
Proof.
  induction items as [| i items IH]; intros p0 m pts Hl.
  - exists pts. split; [reflexivity |]. split.
    + simpl. now rewrite Nat.mul_1_r.
    + intros d Hd. simpl. now replace (d / 1) with d by field.
  - destruct (koch_iter_is_loop p0 m pts Hl) as (pts1 & E1 & Hl1 & Hc1).
    destruct (IH p0 (4 * m)%nat pts1 Hl1) as (pts' & E & Hl' & Hc').
    exists pts'. split; [| split].
    + cbn [for_]. rewrite E1. exact E.
    + cbn [length]. rewrite Nat.pow_succ_r'.
      now replace (m * (4 * 4 ^ length items))%nat
        with (4 * m * 4 ^ length items)%nat by lia.
    + intros d Hd. cbn [length].
      replace (d / 3 ^ S (length items)) with (d / 3 / 3 ^ length items).
      * apply Hc', Hc1, Hd.
      * simpl. field. apply pow_nonzero. lra.
Qed.

(** ** [generate_fractal] *)

Lemma generate_fractal_small (n : Z) (s : R) (depth : Z) :
  (n < 3)%Z -> generate_fractal n s depth = Raise ValueError.
Proof.
  intros H. unfold generate_fractal. now rewrite regular_polygon_small.
Qed.

(** With at least three sides [generate_fractal] returns, whatever the
    side length and the depth. *)
Lemma generate_fractal_ok (n : Z) (s : R) (depth : Z) :
  (3 <= n)%Z ->
  exists pts, generate_fractal n s depth = Ok pts
    /\ is_loop (vertex n s 0) (Z.to_nat n * 4 ^ Z.to_nat depth) pts
    /\ (0 < s -> chain (s / 3 ^ Z.to_nat depth) pts).
Proof.
  intros H. unfold generate_fractal.
  rewrite regular_polygon_eq by assumption. cbn [bind].
  destruct (for_koch_iter (range depth) _ _ _ (polygon_is_loop n s H))
    as (pts & E & Hl & Hc).
  rewrite range_length in Hl, Hc.
  exists pts. split; [exact E |]. split; [exact Hl |].
  intros Hs. apply Hc. now apply polygon_chain.
Qed.

Lemma generate_fractal_neg_depth (n : Z) (s : R) (depth : Z) :
  (depth <= 0)%Z -> generate_fractal n s depth = regular_polygon n s.
Proof.
  intros H. unfold generate_fractal. rewrite range_nonpos by assumption.
  apply bind_Ok_r.
Qed.

(** ** [write_summary] *)

Lemma IZR_pow_pos (b e : Z) : (0 < b)%Z -> (0 <= e)%Z -> 0 < IZR (b ^ e).
Proof. intros Hb He. apply (IZR_lt 0). now apply Z.pow_pos_nonneg. Qed.

Lemma write_summary_eq (n : Z) (s : R) (depth : Z) (pts : list point) :
  (0 <= depth)%Z ->
  write_summary n s depth pts
  = Ok {| segments := Int (n * 4 ^ depth);
          seg_len := Float (s / IZR (3 ^ depth));
          perimeter := Float (IZR (n * 4 ^ depth) * (s / IZR (3 ^ depth)));
          points_written := len pts |}.
Proof.
  intros H. unfold write_summary, ipow.
  destruct (Z.leb_spec 0 depth); [| lia].
  pose proof (IZR_pow_pos 3 depth ltac:(lia) H).
  unfold num_fdiv. rewrite fdiv_ok by lra. reflexivity.
Qed.

(** The real power [3 ^ n] and the integer power [3 ** depth] agree. *)
Lemma pow3_depth (depth : Z) :
  (0 <= depth)%Z -> 3 ^ Z.to_nat depth = IZR (3 ^ depth).
Proof. intros H. now rewrite pow_IZR, Z2Nat.id. Qed.

Lemma edge_count_Z (n depth : Z) :
  (0 <= n)%Z -> (0 <= depth)%Z ->
  Z.of_nat (Z.to_nat n * 4 ^ Z.to_nat depth) = (n * 4 ^ depth)%Z.
Proof.
  intros Hn Hd. now rewrite Nat2Z.inj_mul, Nat2Z.inj_pow, !Z2Nat.id.
Qed.

(** ** The specification's Koch points are the program's *)

Lemma koch_a_spec (p0 p1 : point) : koch_a p0 p1 = spec_a p0 p1.
Proof. reflexivity. Qed.

Lemma koch_b_spec (p0 p1 : point) : koch_b p0 p1 = spec_b p0 p1.
Proof. reflexivity. Qed.

Lemma koch_peak_spec (p0 p1 : point) : koch_peak p0 p1 = spec_peak p0 p1.
Proof.
  unfold koch_peak, spec_peak, rot60, rotate, vadd, vdiv, vsub. cbn [fst snd].
  rewrite cos_PI3, sin_PI3, koch_a_spec, cos60_half. f_equal; ring.
Qed.

(** ** Edges by index *)

(** With edges of length [d], every index below the last holds the start
    of an edge of that length. *)
Lemma edges_indexed (pts : list point) (d : R) (i : Z) :
  edges_have_length pts d ->
  (0 <= i < len pts - 1)%Z ->
  exists p q,
    index pts i = Ok p /\ index pts (i + 1) = Ok q /\ dist p q = d.
Proof.
  intros He Hi. unfold len in Hi.
  destruct (nth_error pts (Z.to_nat i)) as [p |] eqn:Hp.
  2: { apply nth_error_None in Hp. lia. }
  destruct (nth_error pts (S (Z.to_nat i))) as [q |] eqn:Hq.
  2: { apply nth_error_None in Hq. lia. }
  exists p, q. split; [| split].
  - rewrite <- (Z2Nat.id i) by lia. now apply index_nat.
  - replace (i + 1)%Z with (Z.of_nat (S (Z.to_nat i))) by lia.
    now apply index_nat.
  - exact (He _ p q Hp Hq).
Qed.

Lemma loop_len (p0 : point) (n depth : Z) (pts : list point) :
  (0 <= n)%Z -> (0 <= depth)%Z ->
  is_loop p0 (Z.to_nat n * 4 ^ Z.to_nat depth) pts ->
  len pts = (n * 4 ^ depth + 1)%Z.
Proof.
  intros Hn Hd [_ Hlen]. unfold len.
  rewrite Hlen, Nat2Z.inj_succ, edge_count_Z by lia. lia.
Qed.

(** ** Properties of the specification *)

(** C1: for sides >= 3, depth >= 0 and length > 0, [generate_fractal]
    returns a point sequence whose first and last points are equal and
    whose edge count (vertex count minus one) is [sides * 4 ^ depth], which
    is the segment count that [write_summary] computes. *)
Theorem generate_fractal_closed_edge_count (sides : Z) (side_len : R) (depth : Z) :
  (3 <= sides)%Z -> (0 <= depth)%Z -> 0 < side_len ->
  exists pts,
    generate_fractal sides side_len depth = Ok pts
    /\ closed pts
    /\ (len pts - 1 = sides * 4 ^ depth)%Z
    /\ exists rep,
         write_summary sides side_len depth pts = Ok rep
         /\ segments rep = Int (len pts - 1).
Proof.
  intros Hs Hd _.
  destruct (generate_fractal_ok sides side_len depth Hs) as (pts & E & Hl & _).
  exists pts. split; [exact E |].
  assert (Hlen : (len pts - 1 = sides * 4 ^ depth)%Z).
  { destruct Hl as [_ Hlen]. unfold len. rewrite Hlen, Nat2Z.inj_succ.
    rewrite edge_count_Z by lia. lia. }
  split; [| split; [exact Hlen |]].
  - exists (vertex sides side_len 0). exact (is_loop_closed _ _ _ Hl).
  - eexists. split; [now apply write_summary_eq |]. cbn [segments].
    now rewrite Hlen.
Qed.

Lemma generate_fractal_closed_edge_count_witness :
  (3 <= 3)%Z /\ (0 <= 2)%Z /\ 0 < 1
  /\ exists pts,
       generate_fractal 3 1 2 = Ok pts
       /\ closed pts
       /\ (len pts - 1 = 3 * 4 ^ 2)%Z
       /\ exists rep,
            write_summary 3 1 2 pts = Ok rep
            /\ segments rep = Int (len pts - 1).
Proof.
  split; [lia |]. split; [lia |]. split; [lra |].
  apply (generate_fractal_closed_edge_count 3 1 2); [lia | lia | lra].
Defined.

(** C2 (as the code has it): a call with sides < 3 raises [ValueError] from
    [regular_polygon]'s guard, before any point is built, whatever the
    depth and the length; in particular sides = 2 raises. *)
Theorem generate_fractal_rejects_small_sides (sides : Z) (side_len : R) (depth : Z) :
  (sides < 3)%Z ->
  regular_polygon sides side_len = Raise ValueError
  /\ generate_fractal sides side_len depth = Raise ValueError.
Proof.
  intros H. split.
  - now apply regular_polygon_small.
  - now apply generate_fractal_small.
Qed.

Lemma generate_fractal_rejects_small_sides_witness :
  (2 < 3)%Z
  /\ regular_polygon 2 1 = Raise ValueError
  /\ generate_fractal 2 1 4 = Raise ValueError.
Proof.
  split; [lia |]. apply (generate_fractal_rejects_small_sides 2 1 4). lia.
Defined.

(** C2 as stated fails: depth = -1 and length = 0 (and a negative length)
    raise nothing; each call returns the four points of a closed
    triangle. *)
Lemma generate_fractal_unvalidated_depth_length :
  (exists pts, generate_fractal 3 1 (-1) = Ok pts /\ len pts = 4%Z)
  /\ (exists pts, generate_fractal 3 0 0 = Ok pts /\ len pts = 4%Z)
  /\ (exists pts, generate_fractal 3 (-1) 0 = Ok pts /\ len pts = 4%Z).
Proof.
  assert (H : forall s depth, (depth <= 0)%Z ->
                exists pts, generate_fractal 3 s depth = Ok pts /\ len pts = 4%Z).
  { intros s depth Hd. exists (polygon 3 s). split.
    - rewrite generate_fractal_neg_depth by assumption.
      apply regular_polygon_eq. lia.
    - unfold len. now rewrite polygon_length. }
  split; [| split]; apply H; lia.
Qed.

(** C3: for sides >= 3, depth >= 0 and length > 0, [generate_fractal]
    returns [sides * 4 ^ depth + 1] points, and each of its
    [sides * 4 ^ depth] consecutive pairs is at Euclidean distance
    [length / 3 ^ depth], exactly over the reals and so within the relative
    tolerance 1e-9; this is the segment length of [write_summary]. *)
Theorem generate_fractal_edge_length (sides : Z) (side_len : R) (depth : Z) :
  (3 <= sides)%Z -> (0 <= depth)%Z -> 0 < side_len ->
  exists pts,
    generate_fractal sides side_len depth = Ok pts
    /\ len pts = (sides * 4 ^ depth + 1)%Z
    /\ (forall i, (0 <= i < sides * 4 ^ depth)%Z ->
          exists p q,
            index pts i = Ok p /\ index pts (i + 1) = Ok q
            /\ dist p q = side_len / IZR (3 ^ depth))
    /\ edges_have_length pts (side_len / IZR (3 ^ depth))
    /\ (forall i p q,
          nth_error pts i = Some p -> nth_error pts (S i) = Some q ->
          Rabs (dist p q - side_len / IZR (3 ^ depth))
          <= side_len / IZR (3 ^ depth) / 10 ^ 9)
    /\ exists rep,
         write_summary sides side_len depth pts = Ok rep
         /\ seg_len rep = Float (side_len / IZR (3 ^ depth)).
Proof.
  intros Hs Hd Hl.
  destruct (generate_fractal_ok sides side_len depth Hs) as (pts & E & Hloop & Hc).
  specialize (Hc Hl). rewrite pow3_depth in Hc by assumption.
  apply chain_edges in Hc.
  pose proof (loop_len _ sides depth pts ltac:(lia) Hd Hloop) as Hlen.
  exists pts. split; [exact E |]. split; [exact Hlen |]. split; [| split; [exact Hc |]].
  - intros i Hi. apply edges_indexed; [exact Hc | lia].
  - split.
    + intros i p q Hp Hq. rewrite (Hc i p q Hp Hq).
      replace (_ - _) with 0 by ring. rewrite Rabs_R0.
      pose proof (IZR_pow_pos 3 depth ltac:(lia) Hd).
      apply Rlt_le. repeat apply Rdiv_lt_0_compat; lra.
    + eexists. split; [now apply write_summary_eq | reflexivity].
Qed.

Lemma generate_fractal_edge_length_witness :
  (3 <= 4)%Z /\ (0 <= 1)%Z /\ 0 < 1
  /\ exists pts,
       generate_fractal 4 1 1 = Ok pts
       /\ len pts = (4 * 4 ^ 1 + 1)%Z
       /\ (forall i, (0 <= i < 4 * 4 ^ 1)%Z ->
             exists p q,
               index pts i = Ok p /\ index pts (i + 1) = Ok q
               /\ dist p q = 1 / IZR (3 ^ 1))
       /\ edges_have_length pts (1 / IZR (3 ^ 1))
       /\ (forall i p q,
             nth_error pts i = Some p -> nth_error pts (S i) = Some q ->
             Rabs (dist p q - 1 / IZR (3 ^ 1)) <= 1 / IZR (3 ^ 1) / 10 ^ 9)
       /\ exists rep,
            write_summary 4 1 1 pts = Ok rep
            /\ seg_len rep = Float (1 / IZR (3 ^ 1)).
Proof.
  split; [lia |]. split; [lia |]. split; [lra |].
  apply (generate_fractal_edge_length 4 1 1); [lia | lia | lra].
Defined.

(** C4: for points p0 <> p1, [koch_subdivide] returns exactly
    [p0; a; peak; b; p1] with a = p0 + (p1 - p0)/3, b = p0 + 2(p1 - p0)/3
    and peak = a + R60((p1 - p0)/3), R60 the counter-clockwise rotation by
    60 degrees; the four segments between consecutive returned points all
    have length |p1 - p0| / 3. *)
Theorem koch_subdivide_spec (p0 p1 : point) :
  p0 <> p1 ->
  koch_subdivide p0 p1
  = Ok [p0; spec_a p0 p1; spec_peak p0 p1; spec_b p0 p1; p1]
  /\ dist p0 (spec_a p0 p1) = dist p0 p1 / 3
  /\ dist (spec_a p0 p1) (spec_peak p0 p1) = dist p0 p1 / 3
  /\ dist (spec_peak p0 p1) (spec_b p0 p1) = dist p0 p1 / 3
  /\ dist (spec_b p0 p1) p1 = dist p0 p1 / 3
  /\ edges_have_length
       [p0; spec_a p0 p1; spec_peak p0 p1; spec_b p0 p1; p1]
       (dist p0 p1 / 3).
Proof.
  intros _.
  rewrite <- koch_a_spec, <- koch_b_spec, <- koch_peak_spec.
  pose proof (dist_p0_a p0 p1) as H1. pose proof (dist_a_peak p0 p1) as H2.
  pose proof (dist_peak_b p0 p1) as H3. pose proof (dist_b_p1 p0 p1) as H4.
  split; [apply koch_subdivide_eq |].
  repeat (split; [assumption |]).
  apply chain_edges. cbn [chain]. tauto.
Qed.

Lemma koch_subdivide_spec_witness :
  ((0, 0) : point) <> (3, 0)
  /\ koch_subdivide (0, 0) (3, 0)
     = Ok [(0, 0); spec_a (0, 0) (3, 0); spec_peak (0, 0) (3, 0);
           spec_b (0, 0) (3, 0); (3, 0)]
  /\ dist (0, 0) (spec_a (0, 0) (3, 0)) = dist (0, 0) (3, 0) / 3
  /\ dist (spec_a (0, 0) (3, 0)) (spec_peak (0, 0) (3, 0))
     = dist (0, 0) (3, 0) / 3
  /\ dist (spec_peak (0, 0) (3, 0)) (spec_b (0, 0) (3, 0))
     = dist (0, 0) (3, 0) / 3
  /\ dist (spec_b (0, 0) (3, 0)) (3, 0) = dist (0, 0) (3, 0) / 3
  /\ edges_have_length
       [(0, 0); spec_a (0, 0) (3, 0); spec_peak (0, 0) (3, 0);
        spec_b (0, 0) (3, 0); (3, 0)]
       (dist (0, 0) (3, 0) / 3).
Proof.
  assert (N : ((0, 0) : point) <> (3, 0)).
  { intros E. injection E as E. lra. }
  split; [exact N |]. exact (koch_subdivide_spec (0, 0) (3, 0) N).
Defined.

(** C5: for sides >= 3 and length > 0 the polygon builder returns sides + 1
    points: vertex k, for k = 0 .. sides - 1, is
    (R cos(2 pi k / sides), R sin(2 pi k / sides)) with
    R = length / (2 sin(pi / sides)), and the last point is a copy of
    vertex 0. *)
Theorem regular_polygon_vertices (sides : Z) (side_len : R) :
  (3 <= sides)%Z -> 0 < side_len ->
  exists pts,
    regular_polygon sides side_len = Ok pts
    /\ pts = map (vertex sides side_len) (range sides) ++ [vertex sides side_len 0]
    /\ len pts = (sides + 1)%Z
    /\ (forall k, (0 <= k < sides)%Z ->
          index pts k
          = Ok (side_len / (2 * sin (PI / IZR sides))
                  * cos (2 * PI * IZR k / IZR sides),
                side_len / (2 * sin (PI / IZR sides))
                  * sin (2 * PI * IZR k / IZR sides)))
    /\ index pts sides = index pts 0.
Proof.
  intros Hs _. exists (polygon sides side_len).
  split; [now apply regular_polygon_eq |]. split; [reflexivity |].
  assert (Hk : forall k, (0 <= k < sides)%Z ->
                 index (polygon sides side_len) k = Ok (vertex sides side_len k)).
  { intros k Hk. rewrite <- (Z2Nat.id k) at 1 by lia.
    apply index_nat. rewrite polygon_nth by lia. now rewrite Z2Nat.id by lia. }
  split; [| split].
  - unfold len. rewrite polygon_length. lia.
  - exact Hk.
  - rewrite (Hk 0%Z) by lia. rewrite <- (Z2Nat.id sides) at 2 by lia.
    apply index_nat, polygon_nth_last. lia.
Qed.

Lemma regular_polygon_vertices_witness :
  (3 <= 5)%Z /\ 0 < 2
  /\ exists pts,
       regular_polygon 5 2 = Ok pts
       /\ pts = map (vertex 5 2) (range 5) ++ [vertex 5 2 0]
       /\ len pts = (5 + 1)%Z
       /\ (forall k, (0 <= k < 5)%Z ->
             index pts k
             = Ok (2 / (2 * sin (PI / IZR 5)) * cos (2 * PI * IZR k / IZR 5),
                   2 / (2 * sin (PI / IZR 5)) * sin (2 * PI * IZR k / IZR 5)))
       /\ index pts 5 = index pts 0.
Proof.
  split; [lia |]. split; [lra |].
  apply (regular_polygon_vertices 5 2); [lia | lra].
Defined.

(** C6: for sides >= 3 and length > 0, [generate_fractal] at depth 0
    returns exactly what [regular_polygon] returns (identity law). *)
Theorem generate_fractal_depth_0 (sides : Z) (side_len : R) :
  (3 <= sides)%Z -> 0 < side_len ->
  generate_fractal sides side_len 0 = regular_polygon sides side_len
  /\ exists pts, regular_polygon sides side_len = Ok pts.
Proof.
  intros Hs _. split.
  - unfold generate_fractal. cbn [range Z.to_nat seq map for_].
    apply bind_Ok_r.
  - exists (polygon sides side_len). now apply regular_polygon_eq.
Qed.

Lemma generate_fractal_depth_0_witness :
  (3 <= 6)%Z /\ 0 < 1
  /\ generate_fractal 6 1 0 = regular_polygon 6 1
  /\ exists pts, regular_polygon 6 1 = Ok pts.
Proof.
  split; [lia |]. split; [lra |].
  apply (generate_fractal_depth_0 6 1); [lia | lra].
Defined.

(** C8: for sides = 3, depth = 0 and any length > 0, [generate_fractal]
    returns exactly 4 points, a closed triangle whose 3 edges each have
    Euclidean length equal to the given length. *)
Theorem generate_fractal_triangle (side_len : R) :
  0 < side_len ->
  exists a b c,
    generate_fractal 3 side_len 0 = Ok [a; b; c; a]
    /\ closed [a; b; c; a]
    /\ dist a b = side_len /\ dist b c = side_len /\ dist c a = side_len.
Proof.
  intros Hl.
  exists (vertex 3 side_len 0), (vertex 3 side_len 1), (vertex 3 side_len 2).
  pose proof (polygon_chain 3 side_len ltac:(lia) Hl) as Hc.
  split; [| split].
  - rewrite generate_fractal_neg_depth by lia.
    now rewrite regular_polygon_eq by lia.
  - eexists. split; reflexivity.
  - change (polygon 3 side_len)
      with [vertex 3 side_len 0; vertex 3 side_len 1;
            vertex 3 side_len 2; vertex 3 side_len 0] in Hc.
    cbn [chain] in Hc. tauto.
Qed.

Lemma generate_fractal_triangle_witness :
  0 < 2
  /\ exists a b c,
       generate_fractal 3 2 0 = Ok [a; b; c; a]
       /\ closed [a; b; c; a]
       /\ dist a b = 2 /\ dist b c = 2 /\ dist c a = 2.
Proof.
  split; [lra |]. apply (generate_fractal_triangle 2). lra.
Defined.

(** C9: [koch_subdivide] is total: on every pair of points it raises
    nothing and returns five points from p0 to p1; on the degenerate pair
    p0 = p1 all five points are p0. *)
Theorem koch_subdivide_total :
  (forall p0 p1 : point,
     exists a peak b, koch_subdivide p0 p1 = Ok [p0; a; peak; b; p1])
  /\ (forall p : point, koch_subdivide p p = Ok [p; p; p; p; p]).
Proof.
  split.
  - intros p0 p1. do 3 eexists. apply koch_subdivide_eq.
  - intros [x y]. rewrite koch_subdivide_eq.
    unfold koch_peak, koch_a, koch_b. cbn [fst snd].
    points_eq; field.
Qed.

(** C10: for sides >= 3, length > 0 and depth >= 0 the first point of
    [generate_fractal] is the base polygon's vertex 0,
    (length / (2 sin(pi / sides)), 0), at every depth, because each
    [koch_iter] step keeps the first point of the loop it is given. *)
Theorem generate_fractal_first_point (sides : Z) (side_len : R) (depth : Z) :
  (3 <= sides)%Z -> 0 < side_len -> (0 <= depth)%Z ->
  (exists base pts,
     regular_polygon sides side_len = Ok base
     /\ generate_fractal sides side_len depth = Ok pts
     /\ index base 0 = Ok (side_len / (2 * sin (PI / IZR sides)), 0)
     /\ index pts 0 = Ok (side_len / (2 * sin (PI / IZR sides)), 0))
  /\ (forall pts pts' : list point,
        koch_iter pts = Ok pts' -> index pts' 0 = index pts 0).
Proof.
  intros Hs _ _. split.
  - destruct (generate_fractal_ok sides side_len depth Hs) as (pts & E & Hl & _).
    exists (polygon sides side_len), pts.
    split; [now apply regular_polygon_eq |]. split; [exact E |].
    rewrite vertex_0 in Hl. split.
    + pose proof (polygon_is_loop sides side_len Hs) as Hb.
      rewrite vertex_0 in Hb. exact (proj1 (is_loop_closed _ _ _ Hb)).
    + exact (proj1 (is_loop_closed _ _ _ Hl)).
  - intros pts pts' E.
    destruct pts as [| p0 [| p1 rest]];
      try (rewrite koch_iter_short in E by (simpl; lia); discriminate).
    rewrite koch_iter_eq, koch_edges_cons in E. injection E as <-.
    reflexivity.
Qed.

Lemma generate_fractal_first_point_witness :
  (3 <= 3)%Z /\ 0 < 1 /\ (0 <= 2)%Z
  /\ (exists base pts,
        regular_polygon 3 1 = Ok base
        /\ generate_fractal 3 1 2 = Ok pts
        /\ index base 0 = Ok (1 / (2 * sin (PI / IZR 3)), 0)
        /\ index pts 0 = Ok (1 / (2 * sin (PI / IZR 3)), 0))
  /\ (forall pts pts' : list point,
        koch_iter pts = Ok pts' -> index pts' 0 = index pts 0).
Proof.
  split; [lia |]. split; [lra |]. split; [lia |].
  apply (generate_fractal_first_point 3 1 2); [lia | lra | lia].
Defined.

(** ** Concrete scenarios *)

(** The bump of a horizontal segment points to its left (upwards). *)
Example koch_subdivide_horizontal :
  koch_subdivide (0, 0) (3, 0)
  = Ok [(0, 0); (1, 0); (3 / 2, sqrt 3 / 2); (2, 0); (3, 0)].
Proof.
  rewrite koch_subdivide_eq. unfold koch_peak, koch_a, koch_b. cbn [fst snd].
  rewrite cos60_half. points_eq; field.
Qed.

Example koch_iter_no_points : koch_iter [] = Raise IndexError.
Proof. apply koch_iter_short. simpl. lia. Qed.

Example regular_polygon_two_sides (s : R) :
  regular_polygon 2 s = Raise ValueError.
Proof. apply regular_polygon_small. lia. Qed.

(** sides = 4, length = 1, depth = 1: 16 edges of length 1/3, perimeter
    16/3. *)
Example square_depth_1 :
  exists pts rep,
    generate_fractal 4 1 1 = Ok pts
    /\ len pts = 17%Z
    /\ edges_have_length pts (1 / 3)
    /\ write_summary 4 1 1 pts = Ok rep
    /\ segments rep = Int 16
    /\ perimeter rep = Float (16 / 3).
Proof.
  destruct (generate_fractal_ok 4 1 1 ltac:(lia)) as (pts & E & [_ Hlen] & Hc).
  exists pts. eexists. split; [exact E |]. split; [| split; [| split]].
  - unfold len. rewrite Hlen. reflexivity.
  - apply chain_edges. specialize (Hc ltac:(lra)).
    now replace (1 / 3 ^ Z.to_nat 1) with (1 / 3) in Hc by (simpl; field).
  - apply write_summary_eq. lia.
  - cbn [segments perimeter]. split; [reflexivity |].
    change (4 * 4 ^ 1)%Z with 16%Z. change (3 ^ 1)%Z with 3%Z.
    f_equal. field.
Qed.

(** ** Further properties of [koch_iter] *)

(** [koch_iter] raises exactly when its input has fewer than two points,
    and then the exception is the [IndexError] of [new_pts[0]]. *)
Theorem koch_iter_raises_iff (points : list point) :
  (koch_iter points = Raise IndexError <-> (len points < 2)%Z)
  /\ (forall e, koch_iter points = Raise e -> e = IndexError).
Proof.
  destruct points as [| p0 [| p1 rest]].
  - rewrite koch_iter_short by (simpl; lia). split.
    + split; [intros _; reflexivity | reflexivity].
    + intros e E. now injection E.
  - rewrite koch_iter_short by (simpl; lia). split.
    + split; [intros _; reflexivity | reflexivity].
    + intros e E. now injection E.
  - rewrite koch_iter_eq. split.
    + split; [discriminate |]. unfold len. simpl length. lia.
    + discriminate.
Qed.

(** On any input of at least two points, closed or not, [koch_iter]
    returns four points per input edge plus one, and the result starts and
    ends at the input's first point. *)
Theorem koch_iter_closes (points : list point) :
  (2 <= len points)%Z ->
  exists out p0,
    koch_iter points = Ok out
    /\ len out = (4 * (len points - 1) + 1)%Z
    /\ index points 0 = Ok p0
    /\ index out 0 = Ok p0
    /\ index out (-1) = Ok p0.
Proof.
  intros H. destruct points as [| p0 [| p1 rest]];
    try (unfold len in H; simpl in H; lia).
  exists (koch_edges (p0 :: p1 :: rest) ++ [p0]), p0.
  split; [apply koch_iter_eq |]. split; [| split; [| split]].
  - unfold len. rewrite length_app, koch_edges_length. simpl length. lia.
  - reflexivity.
  - rewrite koch_edges_cons. reflexivity.
  - apply index_last.
Qed.

Lemma koch_iter_closes_witness :
  (2 <= len open_path)%Z
  /\ exists out p0,
       koch_iter open_path = Ok out
       /\ len out = (4 * (len open_path - 1) + 1)%Z
       /\ index open_path 0 = Ok p0
       /\ index out 0 = Ok p0
       /\ index out (-1) = Ok p0.
Proof.
  assert (H : (2 <= len open_path)%Z) by (unfold len; simpl; lia).
  split; [exact H |]. exact (koch_iter_closes open_path H).
Defined.

(** Where the points of edge [i] land in the collected list. *)
Lemma koch_edges_nth (pts : list point) :
  forall (i : nat) (p0 p1 : point),
    nth_error pts i = Some p0 -> nth_error pts (S i) = Some p1 ->
    nth_error (koch_edges pts) (4 * i) = Some p0
    /\ nth_error (koch_edges pts) (4 * i + 1) = Some (koch_a p0 p1)
    /\ nth_error (koch_edges pts) (4 * i + 2) = Some (koch_peak p0 p1)
    /\ nth_error (koch_edges pts) (4 * i + 3) = Some (koch_b p0 p1).
Proof.
  induction pts as [| q0 [| q1 rest] IH]; intros i p0 p1 H0 H1.
  - now destruct i.
  - destruct i as [| [| i]]; discriminate.
  - rewrite koch_edges_cons. destruct i as [| i].
    + simpl in H0, H1. injection H0 as <-. injection H1 as <-.
      repeat split; reflexivity.
    + replace (4 * S i)%nat with (S (S (S (S (4 * i))))) by lia.
      exact (IH i p0 p1 H0 H1).
Qed.

(** [koch_iter] keeps every input vertex: edge [i] of the input, from
    [points[i]] to [points[i+1]], becomes the four output points at
    indices [4i .. 4i+3]: [points[i]], the two trisection points and the
    peak between them. *)
Theorem koch_iter_index (points out : list point) (i : Z) :
  koch_iter points = Ok out ->
  (0 <= i < len points - 1)%Z ->
  exists p0 p1,
    index points i = Ok p0
    /\ index points (i + 1) = Ok p1
    /\ index out (4 * i) = Ok p0
    /\ index out (4 * i + 1) = Ok (spec_a p0 p1)
    /\ index out (4 * i + 2) = Ok (spec_peak p0 p1)
    /\ index out (4 * i + 3) = Ok (spec_b p0 p1).
Proof.
  intros E Hi. unfold len in Hi.
  destruct points as [| q0 [| q1 rest]]; try (simpl in Hi; lia).
  rewrite koch_iter_eq in E. injection E as <-.
  set (pts := q0 :: q1 :: rest) in *.
  destruct (nth_error pts (Z.to_nat i)) as [p0 |] eqn:H0.
  2: { apply nth_error_None in H0. lia. }
  destruct (nth_error pts (S (Z.to_nat i))) as [p1 |] eqn:H1.
  2: { apply nth_error_None in H1. lia. }
  destruct (koch_edges_nth pts _ p0 p1 H0 H1) as (Ka & Kb & Kc & Kd).
  exists p0, p1.
  rewrite <- koch_peak_spec.
  change (spec_a p0 p1) with (koch_a p0 p1).
  change (spec_b p0 p1) with (koch_b p0 p1).
  assert (L : forall (k : nat) (q : point),
             nth_error (koch_edges pts) k = Some q ->
             index (koch_edges pts ++ [q0]) (Z.of_nat k) = Ok q).
  { intros k q Hk. apply index_nat. rewrite nth_error_app1; [exact Hk |].
    apply nth_error_Some. congruence. }
  repeat split.
  - rewrite <- (Z2Nat.id i) by lia. now apply index_nat.
  - replace (i + 1)%Z with (Z.of_nat (S (Z.to_nat i))) by lia. now apply index_nat.
  - replace (4 * i)%Z with (Z.of_nat (4 * Z.to_nat i)) by lia. now apply L.
  - replace (4 * i + 1)%Z with (Z.of_nat (4 * Z.to_nat i + 1)) by lia. now apply L.
  - replace (4 * i + 2)%Z with (Z.of_nat (4 * Z.to_nat i + 2)) by lia. now apply L.
  - replace (4 * i + 3)%Z with (Z.of_nat (4 * Z.to_nat i + 3)) by lia. now apply L.
Qed.

Lemma koch_iter_index_witness :
  koch_iter open_path = Ok (koch_edges open_path ++ [origin])
  /\ (0 <= 1 < len open_path - 1)%Z
  /\ exists p0 p1,
       index open_path 1 = Ok p0
       /\ index open_path (1 + 1) = Ok p1
       /\ index (koch_edges open_path ++ [origin]) (4 * 1) = Ok p0
       /\ index (koch_edges open_path ++ [origin]) (4 * 1 + 1) = Ok (spec_a p0 p1)
       /\ index (koch_edges open_path ++ [origin]) (4 * 1 + 2) = Ok (spec_peak p0 p1)
       /\ index (koch_edges open_path ++ [origin]) (4 * 1 + 3) = Ok (spec_b p0 p1).
Proof.
  assert (E : koch_iter open_path = Ok (koch_edges open_path ++ [origin]))
    by apply koch_iter_eq.
  assert (H : (0 <= 1 < len open_path - 1)%Z) by (unfold len; simpl; lia).
  split; [exact E |]. split; [exact H |].
  exact (koch_iter_index open_path _ 1 E H).
Defined.

(** ** Further properties of [generate_fractal] *)

(** A loop over one more item runs the body once more at the end. *)
Lemma for_snoc {I S : Type} (body : I -> S -> result S) (i : I) :
  forall (items : list I) (s : S),
    for_ (items ++ [i]) body s = (s' <- for_ items body s ;; body i s').
Proof.
  induction items as [| j items IH]; intros s; cbn [app for_ bind].
  - apply bind_Ok_r.
  - destruct (body j s) as [s1 | e]; cbn [bind]; [apply IH | reflexivity].
Qed.

Lemma range_succ (n : Z) : (0 <= n)%Z -> range (n + 1) = range n ++ [n].
Proof.
  intros H. unfold range.
  replace (Z.to_nat (n + 1)) with (S (Z.to_nat n)) by lia.
  rewrite seq_S, map_app. cbn [map Nat.add]. now rewrite Z2Nat.id.
Qed.

(** One more level of depth is one more [koch_iter] pass over the result
    of the previous depth, errors included. *)
Theorem generate_fractal_succ (n_sides : Z) (side_len : R) (depth : Z) :
  (0 <= depth)%Z ->
  generate_fractal n_sides side_len (depth + 1)
  = (pts <- generate_fractal n_sides side_len depth ;; koch_iter pts).
Proof.
  intros H. unfold generate_fractal. rewrite range_succ by assumption.
  destruct (regular_polygon n_sides side_len) as [pts | e]; cbn [bind].
  - apply for_snoc.
  - reflexivity.
Qed.

Lemma generate_fractal_succ_witness :
  (0 <= 2)%Z
  /\ generate_fractal 5 1 (2 + 1)
     = (pts <- generate_fractal 5 1 2 ;; koch_iter pts).
Proof.
  split; [lia |]. apply (generate_fractal_succ 5 1 2). lia.
Defined.

(** A negative depth is not rejected: the loop body never runs and the
    result is [regular_polygon]'s, points or exception. *)
Theorem generate_fractal_negative_depth (n_sides : Z) (side_len : R) (depth : Z) :
  (depth < 0)%Z ->
  generate_fractal n_sides side_len depth = regular_polygon n_sides side_len
  /\ generate_fractal n_sides side_len depth = generate_fractal n_sides side_len 0.
Proof.
  intros H. rewrite !generate_fractal_neg_depth by lia. now split.
Qed.

Lemma generate_fractal_negative_depth_witness :
  (-3 < 0)%Z
  /\ generate_fractal 4 1 (-3) = regular_polygon 4 1
  /\ generate_fractal 4 1 (-3) = generate_fractal 4 1 0.
Proof.
  split; [lia |]. apply (generate_fractal_negative_depth 4 1 (-3)). lia.
Defined.

(** ** The base polygon for any side length *)

(** The squared distance of consecutive vertices, for any sign of [s]. *)
Lemma sqdist_vertex_succ (n : Z) (s : R) (k : Z) :
  (3 <= n)%Z -> sqdist (vertex n s k) (vertex n s (k + 1)) = s * s.
Proof.
  intros H.
  pose proof (IZR_sides_pos n H) as Hn.
  pose proof (sin_pi_sides_pos n H) as Hsin.
  unfold sqdist, vertex, circumradius. cbn [fst snd].
  replace (2 * PI * IZR (k + 1) / IZR n)
    with (2 * PI * IZR k / IZR n + 2 * (PI / IZR n))
    by (rewrite plus_IZR; field; lra).
  rewrite cos_plus, sin_plus.
  pose proof (sin2_cos2 (2 * PI * IZR k / IZR n)) as Ha.
  pose proof (sin2_cos2 (2 * (PI / IZR n))) as Hd.
  pose proof (cos_2a_sin (PI / IZR n)) as Hc.
  unfold Rsqr in Ha, Hd.
  set (c := cos (2 * PI * IZR k / IZR n)) in *.
  set (z := sin (2 * PI * IZR k / IZR n)) in *.
  set (C := cos (2 * (PI / IZR n))) in *.
  set (Z := sin (2 * (PI / IZR n))) in *.
  set (t := sin (PI / IZR n)) in *.
  transitivity (s / (2 * t) * (s / (2 * t))
                * ((z * z + c * c) * ((Z * Z + C * C) - 2 * C + 1))).
  - field. lra.
  - rewrite Ha, Hd, Hc. field. lra.
Qed.

Lemma sqrt_square_abs (x : R) : sqrt (x * x) = Rabs x.
Proof. exact (sqrt_Rsqr_abs x). Qed.

Lemma polygon_chain_abs (n : Z) (s : R) :
  (3 <= n)%Z -> chain (Rabs s) (polygon n s).
Proof.
  intros H. apply chain_edges. intros i a b Ha Hb.
  assert (Hi : (S i < length (polygon n s))%nat)
    by (apply nth_error_Some; congruence).
  rewrite polygon_length in Hi.
  rewrite polygon_nth in Ha by lia. injection Ha as <-.
  assert (Eb : b = vertex n s (Z.of_nat i + 1)).
  { destruct (Nat.eq_dec (S i) (Z.to_nat n)) as [E | N].
    - rewrite E, polygon_nth_last in Hb by lia. injection Hb as <-.
      replace (Z.of_nat i + 1)%Z with n by lia.
      symmetry. now apply vertex_sides.
    - rewrite polygon_nth in Hb by lia. injection Hb as <-.
      f_equal. lia. }
  subst b. rewrite dist_sqdist, sqdist_vertex_succ by assumption.
  apply sqrt_square_abs.
Qed.

(** The side length is not validated: for any real [side_len], negative
    and zero included, [generate_fractal] returns [sides * 4 ^ depth + 1]
    points, and each of its [sides * 4 ^ depth] edges has length
    [|side_len| / 3 ^ depth]. *)
Theorem generate_fractal_abs_edge_length (sides : Z) (side_len : R) (depth : Z) :
  (3 <= sides)%Z -> (0 <= depth)%Z ->
  exists pts,
    generate_fractal sides side_len depth = Ok pts
    /\ len pts = (sides * 4 ^ depth + 1)%Z
    /\ (forall i, (0 <= i < sides * 4 ^ depth)%Z ->
          exists p q,
            index pts i = Ok p /\ index pts (i + 1) = Ok q
            /\ dist p q = Rabs side_len / IZR (3 ^ depth))
    /\ edges_have_length pts (Rabs side_len / IZR (3 ^ depth)).
Proof.
  intros Hs Hd. unfold generate_fractal.
  rewrite regular_polygon_eq by assumption. cbn [bind].
  destruct (for_koch_iter (range depth) _ _ _ (polygon_is_loop sides side_len Hs))
    as (pts & E & Hloop & Hc).
  rewrite range_length in Hloop, Hc.
  pose proof (loop_len _ sides depth pts ltac:(lia) Hd Hloop) as Hlen.
  assert (He : edges_have_length pts (Rabs side_len / IZR (3 ^ depth))).
  { apply chain_edges. rewrite <- pow3_depth by assumption.
    apply Hc. now apply polygon_chain_abs. }
  exists pts. split; [exact E |]. split; [exact Hlen |]. split; [| exact He].
  intros i Hi. apply edges_indexed; [exact He | lia].
Qed.

Lemma generate_fractal_abs_edge_length_witness :
  (3 <= 3)%Z /\ (0 <= 1)%Z
  /\ exists pts,
       generate_fractal 3 (-6) 1 = Ok pts
       /\ len pts = (3 * 4 ^ 1 + 1)%Z
       /\ (forall i, (0 <= i < 3 * 4 ^ 1)%Z ->
             exists p q,
               index pts i = Ok p /\ index pts (i + 1) = Ok q
               /\ dist p q = Rabs (-6) / IZR (3 ^ 1))
       /\ edges_have_length pts (Rabs (-6) / IZR (3 ^ 1)).
Proof.
  split; [lia |]. split; [lia |].
  apply (generate_fractal_abs_edge_length 3 (-6) 1); lia.
Defined.

(** The vertices of the base polygon lie on the circle around the origin
    whose radius is the circumradius. *)
Lemma dist_origin_vertex (n : Z) (s : R) (k : Z) :
  dist origin (vertex n s k) = Rabs (circumradius n s).
Proof.
  rewrite dist_sqdist. unfold sqdist, vertex, origin. cbn [fst snd].
  pose proof (sin2_cos2 (2 * PI * IZR k / IZR n)) as H. unfold Rsqr in H.
  set (c := cos _) in *. set (z := sin _) in *.
  replace ((circumradius n s * c - 0) * (circumradius n s * c - 0)
           + (circumradius n s * z - 0) * (circumradius n s * z - 0))
    with (circumradius n s * circumradius n s * (z * z + c * c)) by ring.
  rewrite H, Rmult_1_r. apply sqrt_square_abs.
Qed.

(** [regular_polygon] centres the polygon at the origin: it returns
    [sides + 1] points, and the point at every index 0 .. sides is at
    distance [|side_len| / (2 sin(pi / sides))] from (0, 0). *)
Theorem regular_polygon_on_circle (sides : Z) (side_len : R) :
  (3 <= sides)%Z ->
  exists pts,
    regular_polygon sides side_len = Ok pts
    /\ len pts = (sides + 1)%Z
    /\ (forall k, (0 <= k <= sides)%Z ->
          exists p,
            index pts k = Ok p
            /\ dist origin p = Rabs side_len / (2 * sin (PI / IZR sides)))
    /\ (forall p, In p pts ->
          dist origin p = Rabs side_len / (2 * sin (PI / IZR sides))).
Proof.
  intros Hs. exists (polygon sides side_len).
  split; [now apply regular_polygon_eq |].
  assert (Hin : forall p, In p (polygon sides side_len) ->
                  dist origin p = Rabs side_len / (2 * sin (PI / IZR sides))).
  { intros p Hp.
    assert (E : exists k, p = vertex sides side_len k).
    { unfold polygon in Hp. apply in_app_or in Hp. destruct Hp as [Hp | Hp].
      - apply in_map_iff in Hp. destruct Hp as (k & <- & _). now exists k.
      - destruct Hp as [<- | []]. now exists 0%Z. }
    destruct E as [k ->]. rewrite dist_origin_vertex.
    pose proof (sin_pi_sides_pos sides Hs) as Hsin.
    unfold circumradius, Rdiv. rewrite Rabs_mult. f_equal.
    apply Rabs_pos_eq. apply Rlt_le, Rinv_0_lt_compat. lra. }
  assert (Hlen : length (polygon sides side_len) = S (Z.to_nat sides))
    by apply polygon_length.
  split; [unfold len; lia |]. split; [| exact Hin].
  intros k Hk.
  destruct (nth_error (polygon sides side_len) (Z.to_nat k)) as [p |] eqn:Hp.
  2: { apply nth_error_None in Hp. lia. }
  exists p. split.
  - rewrite <- (Z2Nat.id k) by lia. now apply index_nat.
  - apply Hin. now apply nth_error_In with (n := Z.to_nat k).
Qed.

Lemma regular_polygon_on_circle_witness :
  (3 <= 6)%Z
  /\ exists pts,
       regular_polygon 6 1 = Ok pts
       /\ len pts = (6 + 1)%Z
       /\ (forall k, (0 <= k <= 6)%Z ->
             exists p,
               index pts k = Ok p
               /\ dist origin p = Rabs 1 / (2 * sin (PI / IZR 6)))
       /\ (forall p, In p pts ->
             dist origin p = Rabs 1 / (2 * sin (PI / IZR 6))).
Proof.
  split; [lia |]. apply (regular_polygon_on_circle 6 1). lia.
Defined.

(** ** Which way the bumps point *)

Lemma cross_peak (p0 p1 : point) :
  cross (vsub p1 p0) (vsub (koch_peak p0 p1) p0) = sqrt 3 / 6 * sqdist p0 p1.
Proof.
  destruct p0 as [x0 y0], p1 as [x1 y1].
  unfold cross, vsub, koch_peak, koch_a, sqdist. cbn [fst snd].
  rewrite cos60_half. field.
Qed.

Lemma sqdist_pos (p q : point) : p <> q -> 0 < sqdist p q.
Proof.
  intros N. destruct p as [x0 y0], q as [x1 y1].
  unfold sqdist. cbn [fst snd].
  assert (Hxy : x1 - x0 <> 0 \/ y1 - y0 <> 0).
  { destruct (Req_dec x1 x0) as [-> | Hx]; [| left; lra].
    destruct (Req_dec y1 y0) as [-> | Hy]; [now destruct N | right; lra]. }
  generalize dependent (x1 - x0). generalize (y1 - y0). intros v u Huv.
  destruct Huv; nra.
Qed.

(** The peak of [koch_subdivide] lies strictly to the left of the
    direction of travel from p0 to p1, whenever p0 and p1 differ. *)
Theorem koch_peak_left (p0 p1 : point) :
  p0 <> p1 ->
  exists a peak b,
    koch_subdivide p0 p1 = Ok [p0; a; peak; b; p1]
    /\ left_of p0 p1 peak
    /\ cross (vsub p1 p0) (vsub peak p0) = sqrt 3 / 6 * (dist p0 p1 * dist p0 p1).
Proof.
  intros N. exists (koch_a p0 p1), (koch_peak p0 p1), (koch_b p0 p1).
  split; [apply koch_subdivide_eq |].
  pose proof (sqdist_pos p0 p1 N) as Hpos.
  assert (H3 : 0 < sqrt 3) by (apply sqrt_lt_R0; lra).
  split.
  - unfold left_of. rewrite cross_peak. nra.
  - rewrite cross_peak, dist_sqdist, sqrt_sqrt by lra. reflexivity.
Qed.

Lemma koch_peak_left_witness :
  origin <> (3, 0)
  /\ exists a peak b,
       koch_subdivide origin (3, 0) = Ok [origin; a; peak; b; (3, 0)]
       /\ left_of origin (3, 0) peak
       /\ cross (vsub (3, 0) origin) (vsub peak origin)
          = sqrt 3 / 6 * (dist origin (3, 0) * dist origin (3, 0)).
Proof.
  assert (N : origin <> (3, 0)).
  { unfold origin. intros E. injection E as E. lra. }
  split; [exact N |]. exact (koch_peak_left origin (3, 0) N).
Defined.

Lemma sin_2pi_sides_pos (n : Z) : (3 <= n)%Z -> 0 < sin (2 * (PI / IZR n)).
Proof.
  intros H. pose proof PI_RGT_0 as Hpi.
  assert (Hn : 3 <= IZR n) by now apply (IZR_le 3).
  assert (Hq : 0 < PI / IZR n) by (apply Rdiv_lt_0_compat; lra).
  assert (Hq3 : PI / IZR n <= PI / 3).
  { unfold Rdiv. apply Rmult_le_compat_l; [lra |].
    apply Rinv_le_contravar; lra. }
  apply sin_gt_0; lra.
Qed.

(** The centre of the polygon is to the left of every edge: the vertices
    run counter-clockwise. *)
Lemma cross_vertex_origin (n : Z) (s : R) (k : Z) :
  (3 <= n)%Z ->
  cross (vsub (vertex n s (k + 1)) (vertex n s k)) (vsub origin (vertex n s k))
  = circumradius n s * circumradius n s * sin (2 * (PI / IZR n)).
Proof.
  intros H. pose proof (IZR_sides_pos n H) as Hn.
  unfold cross, vsub, vertex, origin. cbn [fst snd].
  replace (2 * (PI / IZR n))
    with (2 * PI * IZR (k + 1) / IZR n - 2 * PI * IZR k / IZR n)
    by (rewrite plus_IZR; field; lra).
  rewrite sin_minus. ring.
Qed.

(** On every edge of the base polygon the Koch peak is on the same side as
    the polygon's centre, the left of the direction of travel: the bumps of
    the first pass point into the polygon. *)
Theorem polygon_peaks_point_inward (sides : Z) (side_len : R) (k : Z) :
  (3 <= sides)%Z -> side_len <> 0 -> (0 <= k < sides)%Z ->
  exists pts p q,
    regular_polygon sides side_len = Ok pts
    /\ index pts k = Ok p
    /\ index pts (k + 1) = Ok q
    /\ left_of p q origin
    /\ left_of p q (spec_peak p q).
Proof.
  intros Hs Hl Hk.
  pose proof (sin_pi_sides_pos sides Hs) as Hsin.
  pose proof (sin_2pi_sides_pos sides Hs) as Hsin2.
  exists (polygon sides side_len),
    (vertex sides side_len k), (vertex sides side_len (k + 1)).
  split; [now apply regular_polygon_eq |].
  assert (Ik : index (polygon sides side_len) k = Ok (vertex sides side_len k)).
  { rewrite <- (Z2Nat.id k) at 1 by lia. apply index_nat.
    rewrite polygon_nth by lia. now rewrite Z2Nat.id by lia. }
  assert (Ik1 : index (polygon sides side_len) (k + 1)
                = Ok (vertex sides side_len (k + 1))).
  { rewrite <- (Z2Nat.id (k + 1)) at 1 by lia. apply index_nat.
    destruct (Z.eq_dec (k + 1) sides) as [E | N].
    - rewrite E, polygon_nth_last by lia. f_equal. symmetry.
      now apply vertex_sides.
    - rewrite polygon_nth by lia. now rewrite Z2Nat.id by lia. }
  assert (HR : circumradius sides side_len <> 0).
  { unfold circumradius, Rdiv. apply Rmult_integral_contrapositive_currified;
      [exact Hl | apply Rinv_neq_0_compat; lra]. }
  assert (HR2 : 0 < circumradius sides side_len * circumradius sides side_len)
    by nra.
  split; [exact Ik |]. split; [exact Ik1 |]. split.
  - unfold left_of. rewrite cross_vertex_origin by assumption.
    now apply Rmult_lt_0_compat.
  - rewrite <- koch_peak_spec. unfold left_of. rewrite cross_peak.
    assert (H3 : 0 < sqrt 3) by (apply sqrt_lt_R0; lra).
    rewrite sqdist_vertex_succ by assumption.
    pose proof (Rsqr_pos_lt side_len Hl) as Hsq. unfold Rsqr in Hsq.
    apply Rmult_lt_0_compat; lra.
Qed.

Lemma polygon_peaks_point_inward_witness :
  (3 <= 3)%Z /\ 1 <> 0 /\ (0 <= 2 < 3)%Z
  /\ exists pts p q,
       regular_polygon 3 1 = Ok pts
       /\ index pts 2 = Ok p
       /\ index pts (2 + 1) = Ok q
       /\ left_of p q origin
       /\ left_of p q (spec_peak p q).
Proof.
  split; [lia |]. split; [lra |]. split; [lia |].
  apply (polygon_peaks_point_inward 3 1 2); [lia | lra | lia].
Defined.

(** ** Scaling and translating the input *)

Lemma koch_a_affine (c : R) (t p0 p1 : point) :
  koch_a (affine c t p0) (affine c t p1) = affine c t (koch_a p0 p1).
Proof.
  destruct p0, p1, t. unfold koch_a, affine, vadd, vscale. cbn [fst snd].
  f_equal; field.
Qed.

Lemma koch_b_affine (c : R) (t p0 p1 : point) :
  koch_b (affine c t p0) (affine c t p1) = affine c t (koch_b p0 p1).
Proof.
  destruct p0, p1, t. unfold koch_b, affine, vadd, vscale. cbn [fst snd].
  f_equal; field.
Qed.

Lemma koch_peak_affine (c : R) (t p0 p1 : point) :
  koch_peak (affine c t p0) (affine c t p1) = affine c t (koch_peak p0 p1).
Proof.
  destruct p0, p1, t.
  unfold koch_peak, koch_a, affine, vadd, vscale. cbn [fst snd].
  rewrite cos60_half. f_equal; field.
Qed.

Lemma koch_edges_affine (c : R) (t : point) (pts : list point) :
  koch_edges (map (affine c t) pts) = map (affine c t) (koch_edges pts).
Proof.
  induction pts as [| p0 [| p1 rest] IH]; [reflexivity | reflexivity |].
  cbn [map] in *. rewrite !koch_edges_cons. cbn [map].
  now rewrite IH, koch_a_affine, koch_peak_affine, koch_b_affine.
Qed.

Lemma koch_iter_map_affine (c : R) (t : point) (points out : list point) :
  koch_iter points = Ok out ->
  koch_iter (map (affine c t) points) = Ok (map (affine c t) out).
Proof.
  intros E. destruct points as [| p0 [| p1 rest]];
    try (rewrite koch_iter_short in E by (simpl; lia); discriminate).
  rewrite koch_iter_eq in E. injection E as <-.
  cbn [map]. rewrite koch_iter_eq.
  change (affine c t p0 :: affine c t p1 :: map (affine c t) rest)
    with (map (affine c t) (p0 :: p1 :: rest)).
  now rewrite koch_edges_affine, map_app.
Qed.

(** [koch_iter] commutes with scaling by [c] and translating by [t]:
    transforming the input points transforms the output points. *)
Theorem koch_iter_affine (c : R) (t : point) (points out : list point) :
  koch_iter points = Ok out ->
  koch_iter (map (affine c t) points) = Ok (map (affine c t) out).
Proof. apply koch_iter_map_affine. Qed.

Lemma koch_iter_affine_witness :
  koch_iter open_path = Ok (koch_edges open_path ++ [origin])
  /\ koch_iter (map (affine 2 (1, 1)) open_path)
     = Ok (map (affine 2 (1, 1)) (koch_edges open_path ++ [origin])).
Proof.
  assert (E : koch_iter open_path = Ok (koch_edges open_path ++ [origin]))
    by apply koch_iter_eq.
  split; [exact E |]. exact (koch_iter_affine 2 (1, 1) open_path _ E).
Defined.

Lemma iterate_map_affine {I : Type} (c : R) (t : point) (items : list I) :
  forall pts out : list point,
    for_ items (fun _ pts => koch_iter pts) pts = Ok out ->
    for_ items (fun _ pts => koch_iter pts) (map (affine c t) pts)
    = Ok (map (affine c t) out).
Proof.
  induction items as [| i items IH]; intros pts out E; cbn [for_] in *.
  - now injection E as <-.
  - destruct (koch_iter pts) as [pts1 | e] eqn:E1; [| discriminate].
    rewrite (koch_iter_map_affine c t pts pts1 E1). cbn [bind] in *.
    now apply IH.
Qed.

Lemma affine_origin (c : R) (p : point) : affine c origin p = vscale c p.
Proof.
  unfold affine, vadd, vscale, origin. cbn [fst snd]. f_equal; ring.
Qed.

Lemma vertex_scale (n : Z) (c s : R) (k : Z) :
  vertex n (c * s) k = vscale c (vertex n s k).
Proof.
  unfold vertex, circumradius, vscale, Rdiv. cbn [fst snd]. f_equal; ring.
Qed.

Lemma polygon_scale (n : Z) (c s : R) :
  polygon n (c * s) = map (vscale c) (polygon n s).
Proof.
  unfold polygon. rewrite map_app, map_map. cbn [map].
  rewrite vertex_scale. f_equal.
  apply map_ext. intros k. apply vertex_scale.
Qed.

(** Multiplying the side length by [c] multiplies every coordinate of
    every returned point by [c]: the fractal's shape does not depend on
    the side length. *)
Theorem generate_fractal_scale (sides : Z) (c side_len : R) (depth : Z) :
  (3 <= sides)%Z ->
  exists pts,
    generate_fractal sides side_len depth = Ok pts
    /\ generate_fractal sides (c * side_len) depth = Ok (map (vscale c) pts).
Proof.
  intros Hs.
  destruct (generate_fractal_ok sides side_len depth Hs) as (pts & E & _).
  exists pts. split; [exact E |].
  unfold generate_fractal in *.
  rewrite regular_polygon_eq in * by assumption. cbn [bind] in *.
  rewrite polygon_scale.
  rewrite (map_ext (vscale c) (affine c origin))
    by (intros p; symmetry; apply affine_origin).
  rewrite (map_ext (vscale c) (affine c origin))
    by (intros p; symmetry; apply affine_origin).
  now apply iterate_map_affine.
Qed.

Lemma generate_fractal_scale_witness :
  (3 <= 4)%Z
  /\ exists pts,
       generate_fractal 4 1 2 = Ok pts
       /\ generate_fractal 4 (5 * 1) 2 = Ok (map (vscale 5) pts).
Proof.
  split; [lia |]. apply (generate_fractal_scale 4 5 1 2). lia.
Defined.

(** ** The summary against the generated points *)

Lemma path_length_chain (d : R) (pts : list point) :
  chain d pts -> path_length pts = INR (length pts - 1) * d.
Proof.
  induction pts as [| p [| q rest] IH]; intros Hc.
  - simpl. ring.
  - simpl. ring.
  - apply chain_cons in Hc. destruct Hc as [Hd Hc].
    change (path_length (p :: q :: rest))
      with (dist p q + path_length (q :: rest)).
    rewrite (IH Hc), Hd.
    replace (length (p :: q :: rest) - 1)%nat
      with (S (length (q :: rest) - 1)) by (simpl; lia).
    rewrite S_INR. ring.
Qed.

(** For valid parameters the report agrees with the points: the perimeter
    that [write_summary] computes from the parameters alone is the length
    of the polyline that [generate_fractal] returns, and the number of
    points written is the segment count plus one. *)
Theorem summary_matches_points (sides : Z) (side_len : R) (depth : Z) :
  (3 <= sides)%Z -> (0 <= depth)%Z -> 0 < side_len ->
  exists pts rep per,
    generate_fractal sides side_len depth = Ok pts
    /\ write_summary sides side_len depth pts = Ok rep
    /\ perimeter rep = Float per
    /\ path_length pts = per
    /\ segments rep = Int (sides * 4 ^ depth)
    /\ points_written rep = (sides * 4 ^ depth + 1)%Z.
Proof.
  intros Hs Hd Hl.
  destruct (generate_fractal_ok sides side_len depth Hs)
    as (pts & E & [_ Hlen] & Hc).
  specialize (Hc Hl).
  exists pts. eexists. eexists.
  split; [exact E |]. split; [now apply write_summary_eq |].
  cbn [perimeter segments points_written].
  split; [reflexivity |]. split; [| split; [reflexivity |]].
  - rewrite (path_length_chain _ _ Hc), Hlen.
    replace (S (Z.to_nat sides * 4 ^ Z.to_nat depth) - 1)%nat
      with (Z.to_nat sides * 4 ^ Z.to_nat depth)%nat by lia.
    rewrite INR_IZR_INZ, edge_count_Z by lia.
    now rewrite pow3_depth.
  - unfold len. rewrite Hlen, Nat2Z.inj_succ, edge_count_Z by lia. lia.
Qed.

Lemma summary_matches_points_witness :
  (3 <= 4)%Z /\ (0 <= 1)%Z /\ 0 < 1
  /\ exists pts rep per,
       generate_fractal 4 1 1 = Ok pts
       /\ write_summary 4 1 1 pts = Ok rep
       /\ perimeter rep = Float per
       /\ path_length pts = per
       /\ segments rep = Int (4 * 4 ^ 1)
       /\ points_written rep = (4 * 4 ^ 1 + 1)%Z.
Proof.
  split; [lia |]. split; [lia |]. split; [lra |].
  apply (summary_matches_points 4 1 1); [lia | lia | lra].
Defined.

(** ** [write_summary] within the range of floats *)

Lemma to_float_ok (z : Z) :
  (Z.abs z < float_limit)%Z -> to_float z = Ok (IZR z).
Proof.
  intros H. unfold to_float.
  destruct (Z.ltb_spec (Z.abs z) float_limit); [reflexivity | lia].
Qed.

Lemma to_float_overflow (z : Z) :
  (float_limit <= Z.abs z)%Z -> to_float z = Raise OverflowError.
Proof.
  intros H. unfold to_float.
  destruct (Z.ltb_spec (Z.abs z) float_limit); [lia | reflexivity].
Qed.

Lemma to_float_cases (z : Z) :
  to_float z = Ok (IZR z) \/ to_float z = Raise OverflowError.
Proof.
  unfold to_float. destruct (Z.abs z <? float_limit)%Z; [now left | now right].
Qed.

Lemma float_limit_big : (4 < float_limit)%Z.
Proof. apply Z.ltb_lt. vm_compute. reflexivity. Qed.

(** Inside the range the checked summary is the summary. *)
Lemma write_summary_checked_eq (n : Z) (s : R) (depth : Z) (pts : list point) :
  (0 <= depth)%Z ->
  (Z.abs (n * 4 ^ depth) < float_limit)%Z -> (3 ^ depth < float_limit)%Z ->
  write_summary_checked n s depth pts
  = Ok {| segments := Int (n * 4 ^ depth);
          seg_len := Float (s / IZR (3 ^ depth));
          perimeter := Float (IZR (n * 4 ^ depth) * (s / IZR (3 ^ depth)));
          points_written := len pts |}.
Proof.
  intros Hd H4 H3. unfold write_summary_checked, ipow_checked.
  destruct (Z.leb_spec 0 depth); [| lia].
  pose proof (IZR_pow_pos 3 depth ltac:(lia) Hd) as Hpos.
  pose proof (Z.pow_pos_nonneg 3 depth ltac:(lia) Hd) as Hpos3.
  cbn [bind num_mul_checked num_fdiv_checked].
  rewrite (to_float_ok (3 ^ depth)) by lia. cbn [bind].
  rewrite fdiv_ok by lra. cbn [bind num_mul_checked].
  rewrite to_float_ok by assumption. reflexivity.
Qed.

(** Outside the range a conversion raises. *)
Lemma write_summary_checked_overflow (n : Z) (s : R) (depth : Z)
  (pts : list point) :
  (0 <= depth)%Z ->
  (float_limit <= Z.abs (n * 4 ^ depth))%Z \/ (float_limit <= 3 ^ depth)%Z ->
  write_summary_checked n s depth pts = Raise OverflowError.
Proof.
  intros Hd H. unfold write_summary_checked, ipow_checked.
  destruct (Z.leb_spec 0 depth); [| lia].
  pose proof (IZR_pow_pos 3 depth ltac:(lia) Hd) as Hpos.
  pose proof (Z.pow_pos_nonneg 3 depth ltac:(lia) Hd) as Hpos3.
  cbn [bind num_mul_checked num_fdiv_checked].
  destruct (Z.lt_ge_cases (3 ^ depth) float_limit) as [H3 | H3].
  - rewrite (to_float_ok (3 ^ depth)) by lia. cbn [bind].
    rewrite fdiv_ok by lra. cbn [bind num_mul_checked].
    rewrite to_float_overflow by (destruct H; lia). reflexivity.
  - rewrite (to_float_overflow (3 ^ depth)) by lia. reflexivity.
Qed.

(** Whatever the checked summary returns, the summary returns too. *)
Lemma write_summary_checked_refines (n : Z) (s : R) (depth : Z)
  (pts : list point) (rep : summary) :
  write_summary_checked n s depth pts = Ok rep ->
  write_summary n s depth pts = Ok rep.
Proof.
  intros E. destruct (Z.lt_ge_cases depth 0) as [Hd | Hd].
  - revert E. unfold write_summary_checked, write_summary, ipow_checked, ipow.
    destruct (Z.leb_spec 0 depth); [lia |].
    rewrite (to_float_ok 4) by (pose proof float_limit_big; lia).
    cbn [bind].
    destruct (to_float_cases depth) as [-> | ->]; cbn [bind]; [| discriminate].
    cbn [num_mul_checked num_mul].
    destruct (to_float_cases n) as [-> | ->]; cbn [bind]; [| discriminate].
    intros E. exact E.
  - destruct (Z.lt_ge_cases (Z.abs (n * 4 ^ depth)) float_limit) as [H4 | H4].
    + destruct (Z.lt_ge_cases (3 ^ depth) float_limit) as [H3 | H3].
      * rewrite write_summary_checked_eq in E by assumption.
        now rewrite write_summary_eq.
      * rewrite write_summary_checked_overflow in E by (assumption || now right).
        discriminate.
    + rewrite write_summary_checked_overflow in E by (assumption || now left).
      discriminate.
Qed.

(** The perimeter formula grows by the factor 4/3 with each level. *)
Lemma perimeter_step (sides : Z) (side_len : R) (depth : Z) :
  (3 <= sides)%Z -> 0 < side_len -> (0 <= depth)%Z ->
  IZR (sides * 4 ^ depth) * (side_len / IZR (3 ^ depth))
  < IZR (sides * 4 ^ (depth + 1)) * (side_len / IZR (3 ^ (depth + 1))).
Proof.
  intros Hs Hl Hd.
  replace (depth + 1)%Z with (Z.succ depth) by lia.
  rewrite !Z.pow_succ_r by assumption.
  rewrite !mult_IZR.
  pose proof (IZR_pow_pos 4 depth ltac:(lia) Hd) as H4.
  pose proof (IZR_pow_pos 3 depth ltac:(lia) Hd) as H3.
  pose proof (IZR_sides_pos sides Hs) as Hn.
  set (a := IZR (4 ^ depth)) in *. set (b := IZR (3 ^ depth)) in *.
  assert (Hp : 0 < IZR sides * a * (side_len / b)).
  { apply Rmult_lt_0_compat; [nra |]. now apply Rdiv_lt_0_compat. }
  replace (IZR sides * (4 * a) * (side_len / (3 * b)))
    with (4 / 3 * (IZR sides * a * (side_len / b))) by (field; lra).
  lra.
Qed.

(** What the range hypothesis of the perimeter theorem gives. *)
Lemma in_range_below (sides depth : Z) :
  (3 <= sides)%Z -> (0 <= depth)%Z ->
  (sides * 4 ^ (depth + 1) < float_limit)%Z ->
  (Z.abs (sides * 4 ^ depth) < float_limit)%Z
  /\ (3 ^ depth < float_limit)%Z
  /\ (Z.abs (sides * 4 ^ (depth + 1)) < float_limit)%Z
  /\ (3 ^ (depth + 1) < float_limit)%Z.
Proof.
  intros Hs Hd H.
  pose proof (Z.pow_pos_nonneg 4 depth ltac:(lia) Hd) as P4.
  pose proof (Z.pow_pos_nonneg 3 depth ltac:(lia) Hd) as P3.
  pose proof (Z.pow_le_mono_l 3 4 depth ltac:(lia)) as L34.
  assert (E4 : (4 ^ (depth + 1) = 4 * 4 ^ depth)%Z)
    by (replace (depth + 1)%Z with (Z.succ depth) by lia;
        now rewrite Z.pow_succ_r).
  assert (E3 : (3 ^ (depth + 1) = 3 * 3 ^ depth)%Z)
    by (replace (depth + 1)%Z with (Z.succ depth) by lia;
        now rewrite Z.pow_succ_r).
  rewrite E4 in *. rewrite E3.
  generalize dependent (4 ^ depth)%Z. generalize dependent (3 ^ depth)%Z.
  intros t P3 f P4 L34 _ H.
  repeat split; try (rewrite Z.abs_eq by nia); nia.
Qed.

(** C7 (as the code has it): for fixed sides >= 3 and length > 0, and for
    every depth >= 0 whose next segment count [sides * 4 ^ (depth + 1)]
    still converts to a float, [write_summary] returns at both depths and
    its perimeter, [sides * 4 ^ depth * (length / 3 ^ depth)], is greater at
    depth + 1 than at depth. *)
Theorem perimeter_strictly_increasing (sides : Z) (side_len : R) (depth : Z)
  (pts pts' : list point) :
  (3 <= sides)%Z -> 0 < side_len -> (0 <= depth)%Z ->
  (sides * 4 ^ (depth + 1) < float_limit)%Z ->
  exists rep rep' p p',
    write_summary_checked sides side_len depth pts = Ok rep
    /\ write_summary_checked sides side_len (depth + 1) pts' = Ok rep'
    /\ perimeter rep = Float p
    /\ perimeter rep' = Float p'
    /\ p = IZR (sides * 4 ^ depth) * (side_len / IZR (3 ^ depth))
    /\ p < p'.
Proof.
  intros Hs Hl Hd Hr.
  destruct (in_range_below sides depth Hs Hd Hr) as (A & B & C & D).
  rewrite !write_summary_checked_eq by (assumption || lia).
  do 4 eexists. repeat (split; [reflexivity |]).
  now apply perimeter_step.
Qed.

Lemma perimeter_strictly_increasing_witness :
  (3 <= 4)%Z /\ 0 < 1 /\ (0 <= 1)%Z /\ (4 * 4 ^ (1 + 1) < float_limit)%Z
  /\ exists rep rep' p p',
       write_summary_checked 4 1 1 [] = Ok rep
       /\ write_summary_checked 4 1 (1 + 1) [] = Ok rep'
       /\ perimeter rep = Float p
       /\ perimeter rep' = Float p'
       /\ p = IZR (4 * 4 ^ 1) * (1 / IZR (3 ^ 1))
       /\ p < p'.
Proof.
  assert (Hr : (4 * 4 ^ (1 + 1) < float_limit)%Z)
    by (apply Z.ltb_lt; vm_compute; reflexivity).
  split; [lia |]. split; [lra |]. split; [lia |]. split; [exact Hr |].
  apply (perimeter_strictly_increasing 4 1 1 [] []); [lia | lra | lia | exact Hr].
Defined.

(** C7 as stated fails: with 3 sides, [write_summary] still returns at
    depth 511, but at depth 512 the segment count [3 * 4 ^ 512] is too
    large to convert to a float and [write_summary] raises
    [OverflowError]: there is no perimeter at depth 512 to be greater than
    the one at depth 511. *)
Lemma perimeter_overflows_at_depth_512 :
  (exists rep, write_summary_checked 3 1 511 [] = Ok rep)
  /\ write_summary_checked 3 1 512 [] = Raise OverflowError.
Proof.
  split.
  - eexists. apply write_summary_checked_eq; [lia | |];
      apply Z.ltb_lt; vm_compute; reflexivity.
  - apply write_summary_checked_overflow; [lia |]. left.
    apply Z.leb_le. vm_compute. reflexivity.
Qed.

(** [write_summary] raises nothing but the [OverflowError] of converting
    an int to a float, never [ZeroDivisionError]; what it returns is what
    the summary over the reals gives.  For depth >= 0 it raises exactly
    when [n_sides * 4 ^ depth] or [3 ^ depth] is too large for a float; for
    depth < 0 it raises exactly when [depth] or [n_sides] is too large for
    a float, and the segment length and the perimeter it returns are
    nan. *)
Theorem write_summary_raises_only_overflow (n_sides : Z) (side_len : R)
  (depth : Z) (points : list point) :
  (write_summary_checked n_sides side_len depth points = Raise OverflowError
   \/ exists rep,
        write_summary_checked n_sides side_len depth points = Ok rep
        /\ write_summary n_sides side_len depth points = Ok rep
        /\ points_written rep = len points)
  /\ ((0 <= depth)%Z ->
      (write_summary_checked n_sides side_len depth points = Raise OverflowError
       <-> (float_limit <= Z.abs (n_sides * 4 ^ depth))%Z
           \/ (float_limit <= 3 ^ depth)%Z))
  /\ ((depth < 0)%Z ->
      (write_summary_checked n_sides side_len depth points = Raise OverflowError
       <-> (float_limit <= Z.abs depth)%Z \/ (float_limit <= Z.abs n_sides)%Z)
      /\ forall rep,
           write_summary_checked n_sides side_len depth points = Ok rep ->
           seg_len rep = NaN /\ perimeter rep = NaN).
Proof.
  split; [| split].
  - destruct (write_summary_checked n_sides side_len depth points)
      as [rep | e] eqn:E.
    + right. exists rep. split; [reflexivity |].
      pose proof (write_summary_checked_refines _ _ _ _ _ E) as Ei.
      split; [exact Ei |].
      unfold write_summary in Ei.
      destruct (if (0 <=? depth)%Z
                then num_fdiv side_len (ipow 3 depth) else Ok NaN);
        cbn [bind] in Ei; [| discriminate].
      now injection Ei as <-.
    + left. revert E. unfold write_summary_checked, ipow_checked.
      destruct (Z.leb_spec 0 depth) as [Hd | Hd].
      * cbn [bind num_mul_checked num_fdiv_checked].
        pose proof (IZR_pow_pos 3 depth ltac:(lia) Hd) as Hpos.
        destruct (to_float_cases (3 ^ depth)) as [-> | ->]; cbn [bind];
          [| now intros [= <-]].
        rewrite fdiv_ok by lra. cbn [bind num_mul_checked].
        destruct (to_float_cases (n_sides * 4 ^ depth)) as [-> | ->];
          cbn [bind]; [discriminate | now intros [= <-]].
      * destruct (to_float_cases 4) as [-> | ->]; cbn [bind];
          [| now intros [= <-]].
        destruct (to_float_cases depth) as [-> | ->]; cbn [bind];
          [| now intros [= <-]].
        cbn [num_mul_checked].
        destruct (to_float_cases n_sides) as [-> | ->]; cbn [bind];
          [discriminate | now intros [= <-]].
  - intros Hd. split.
    + intros E.
      destruct (Z.lt_ge_cases (Z.abs (n_sides * 4 ^ depth)) float_limit) as [H4 | H4];
        [| now left].
      destruct (Z.lt_ge_cases (3 ^ depth) float_limit) as [H3 | H3];
        [| now right].
      rewrite write_summary_checked_eq in E by assumption. discriminate.
    + now apply write_summary_checked_overflow.
  - intros Hd. split.
    + unfold write_summary_checked, ipow_checked.
      destruct (Z.leb_spec 0 depth); [lia |].
      rewrite (to_float_ok 4) by (pose proof float_limit_big; lia).
      cbn [bind].
      destruct (Z.lt_ge_cases (Z.abs depth) float_limit) as [Hr | Hr].
      * rewrite (to_float_ok depth) by assumption. cbn [bind num_mul_checked].
        destruct (Z.lt_ge_cases (Z.abs n_sides) float_limit) as [Hn | Hn].
        -- rewrite (to_float_ok n_sides) by assumption. cbn [bind num_mul_checked].
           split; [discriminate | lia].
        -- rewrite (to_float_overflow n_sides) by assumption.
           split; [now right | reflexivity].
      * rewrite (to_float_overflow depth) by assumption.
        split; [now left | reflexivity].
    + intros rep E. apply write_summary_checked_refines in E.
      revert E. unfold write_summary, ipow.
      destruct (Z.leb_spec 0 depth); [lia |]. cbn [bind num_mul].
      intros [= <-]. now split.
Qed.

(** ** The prompts and [main] *)

Section ProgramFacts.

Variable parse_int : String.string -> option Z.
Variable parse_float : String.string -> option R.

Lemma prompt_int_rejects (p : prompt) (m : Z) (line : String.string)
  (rest : list String.string) :
  rejected parse_int m line ->
  prompt_int parse_int p (Some m) (line :: rest)
  = (let '(ev, o, inp') := prompt_int parse_int p (Some m) rest in
     (Ask p :: Print InvalidInput :: ev, o, inp')).
Proof.
  unfold rejected. intros H. cbn [prompt_int below].
  destruct (parse_int line) as [v |]; [| reflexivity].
  destruct (Z.ltb_spec v m); [reflexivity | lia].
Qed.

(** [prompt_int] returns the first line that parses to an integer not
    below the minimum; each line before it costs one question and one
    "Invalid input. Try again.", and the lines after it stay unread. *)
Theorem prompt_int_first_valid (p : prompt) (m v : Z)
  (bad : list String.string) (line : String.string) (rest : list String.string) :
  (forall l, In l bad -> rejected parse_int m l) ->
  parse_int line = Some v -> (m <= v)%Z ->
  prompt_int parse_int p (Some m) (bad ++ line :: rest)
  = (flat_map (fun _ => [Ask p; Print InvalidInput]) bad ++ [Ask p],
     Done v, rest).
Proof.
  intros Hbad Hline Hv. induction bad as [| b bad IH]; cbn [app flat_map].
  - cbn [prompt_int below]. rewrite Hline.
    destruct (Z.ltb_spec v m); [lia | reflexivity].
  - rewrite prompt_int_rejects by (apply Hbad; now left).
    rewrite IH by (intros l Hl; apply Hbad; now right). reflexivity.
Qed.

(** When no line is acceptable [prompt_int] never returns: at the end of
    the input the [EOFError] of [input] is caught like any bad line. *)
Theorem prompt_int_end_of_input (p : prompt) (m : Z) (bad : list String.string) :
  (forall l, In l bad -> rejected parse_int m l) ->
  exists ev, prompt_int parse_int p (Some m) bad = (ev, Hangs, []).
Proof.
  intros Hbad. induction bad as [| b bad IH].
  - eexists. reflexivity.
  - rewrite prompt_int_rejects by (apply Hbad; now left).
    destruct IH as [ev E]; [intros l Hl; apply Hbad; now right |].
    rewrite E. eexists. reflexivity.
Qed.










(** A [--sides] below 3 is refused at once: one message, exit status 1, no
    question asked, no line read, nothing created, whatever the other
    arguments. *)
Theorem main_rejects_sides_flag (a : args) (has_matplotlib : bool)
  (inp : list String.string) (n : Z) :
  arg_sides a = Some n -> (n < 3)%Z ->
  main parse_int parse_float a has_matplotlib inp
  = ([Print SidesTooSmall], Exited 1, inp).
Proof.
  intros Ea Hn. unfold main. rewrite Ea.
  destruct (Z.ltb_spec n 3); [reflexivity | lia].
Qed.

(** A negative [--depth] is checked only after the side length is known:
    when [--length] is missing, the length is asked and read first, and
    the run then exits with status 1 without creating anything. *)
Theorem main_rejects_depth_flag_after_length (a : args) (has_matplotlib : bool)
  (line : String.string) (rest : list String.string) (n d : Z) (l : R) :
  arg_sides a = Some n -> (3 <= n)%Z ->
  arg_length a = None -> parse_float line = Some l ->
  arg_depth a = Some d -> (d < 0)%Z ->
  main parse_int parse_float a has_matplotlib (line :: rest)
  = ([Ask AskLength; Print DepthNegative], Exited 1, rest).
Proof.
  intros Ea Hn El Hl Ed Hd. unfold main. rewrite Ea, El, Ed.
  destruct (Z.ltb_spec n 3); [lia |].
  destruct (Z.ltb_spec d 0); [| lia].
  unfold io_bind, io_ret, emit, sys_exit. cbn [prompt_float].
  rewrite Hl. reflexivity.
Qed.

End ProgramFacts.

Lemma prompt_int_first_valid_witness :
  (forall l, In l [Sample.line_word; Sample.line_2] ->
             rejected Sample.parse_int 3 l)
  /\ Sample.parse_int Sample.line_6 = Some 6%Z
  /\ (3 <= 6)%Z
  /\ prompt_int Sample.parse_int AskSides (Some 3%Z)
       ([Sample.line_word; Sample.line_2] ++ Sample.line_6 :: [Sample.line_15])
     = (flat_map (fun _ => [Ask AskSides; Print InvalidInput])
          [Sample.line_word; Sample.line_2] ++ [Ask AskSides],
        Done 6%Z, [Sample.line_15]).
Proof.
  assert (Hbad : forall l, In l [Sample.line_word; Sample.line_2] ->
                           rejected Sample.parse_int 3 l).
  { intros l [<- | [<- | []]]; unfold rejected; simpl; [exact I | lia]. }
  split; [exact Hbad |]. split; [reflexivity |]. split; [lia |].
  exact (prompt_int_first_valid Sample.parse_int AskSides 3 6
           [Sample.line_word; Sample.line_2] Sample.line_6 [Sample.line_15]
           Hbad eq_refl ltac:(lia)).
Defined.

Lemma prompt_int_end_of_input_witness :
  (forall l, In l [Sample.line_2; Sample.line_word] ->
             rejected Sample.parse_int 3 l)
  /\ exists ev,
       prompt_int Sample.parse_int AskSides (Some 3%Z)
         [Sample.line_2; Sample.line_word]
       = (ev, Hangs, []).
Proof.
  assert (Hbad : forall l, In l [Sample.line_2; Sample.line_word] ->
                           rejected Sample.parse_int 3 l).
  { intros l [<- | [<- | []]]; unfold rejected; simpl; [lia | exact I]. }
  split; [exact Hbad |].
  exact (prompt_int_end_of_input Sample.parse_int AskSides 3 _ Hbad).
Defined.

Lemma main_rejects_sides_flag_witness :
  arg_sides Sample.args_two_sides = Some 2%Z /\ (2 < 3)%Z
  /\ main Sample.parse_int Sample.parse_float Sample.args_two_sides true
       [Sample.line_6]
     = ([Print SidesTooSmall], Exited 1, [Sample.line_6]).
Proof.
  split; [reflexivity |]. split; [lia |].
  apply (main_rejects_sides_flag Sample.parse_int Sample.parse_float
           Sample.args_two_sides true [Sample.line_6] 2); [reflexivity | lia].
Defined.

Lemma main_rejects_depth_flag_after_length_witness :
  arg_sides Sample.args_negative_depth = Some 5%Z /\ (3 <= 5)%Z
  /\ arg_length Sample.args_negative_depth = None
  /\ Sample.parse_float Sample.line_6 = Some 6
  /\ arg_depth Sample.args_negative_depth = Some (-1)%Z /\ (-1 < 0)%Z
  /\ main Sample.parse_int Sample.parse_float Sample.args_negative_depth true
       [Sample.line_6; Sample.line_2]
     = ([Ask AskLength; Print DepthNegative], Exited 1, [Sample.line_2]).
Proof.
  repeat (split; [first [reflexivity | lia] |]).
  apply (main_rejects_depth_flag_after_length Sample.parse_int
           Sample.parse_float Sample.args_negative_depth true
           Sample.line_6 [Sample.line_2] 5 (-1) 6);
    first [reflexivity | lia].
Defined.

(** * The substitution cipher *)

Module CipherFacts.
Import Cipher.

(** ** Dictionaries *)

Lemma dict_set_fresh (k v : char) (d : dict) :
  ~ In k (map fst d) -> dict_set k v d = d ++ [(k, v)].
Proof.
  induction d as [| [k' v'] d IH]; intros H; [reflexivity |].
  cbn [dict_set app]. cbn [map fst In] in H.
  destruct (N.eqb_spec k' k) as [E | N]; [tauto |].
  rewrite IH by tauto. reflexivity.
Qed.

Lemma dict_get_None (d : dict) (k : char) :
  ~ In k (map fst d) -> dict_get d k = None.
Proof.
  induction d as [| [k' v'] d IH]; intros H; [reflexivity |].
  cbn [dict_get]. cbn [map fst In] in H.
  destruct (N.eqb_spec k' k) as [E | N]; [tauto | apply IH; tauto].
Qed.

Lemma dict_get_In (d : dict) (k v : char) :
  NoDup (map fst d) -> In (k, v) d -> dict_get d k = Some v.
Proof.
  induction d as [| [k' v'] d IH]; intros Hn Hin; [destruct Hin |].
  cbn [map fst] in Hn. apply NoDup_cons_iff in Hn. destruct Hn as [Hk Hn].
  cbn [dict_get]. destruct Hin as [E | Hin].
  - injection E as -> ->. now rewrite N.eqb_refl.
  - destruct (N.eqb_spec k' k) as [-> | N]; [| now apply IH].
    destruct Hk. apply in_map_iff. now exists (k, v).
Qed.

Lemma dict_get_Some_In (d : dict) (k v : char) :
  dict_get d k = Some v -> In (k, v) d.
Proof.
  induction d as [| [k' v'] d IH]; intros H; [discriminate |].
  cbn [dict_get] in H. destruct (N.eqb_spec k' k) as [-> | N].
  - injection H as ->. now left.
  - right. now apply IH.
Qed.

(** Inverting a dictionary with distinct values swaps its items. *)
Lemma invert_items (d acc : dict) :
  NoDup (map fst acc ++ map snd d) ->
  fold_left (fun d kv => dict_set (snd kv) (fst kv) d) d acc
  = acc ++ map swap d.
Proof.
  revert acc. induction d as [| [k v] d IH]; intros acc Hn.
  - cbn. now rewrite app_nil_r.
  - cbn [fold_left map snd fst swap] in *.
    rewrite dict_set_fresh.
    + rewrite IH.
      * now rewrite <- app_assoc.
      * rewrite map_app. cbn [map fst]. rewrite <- app_assoc. exact Hn.
    + apply NoDup_remove_2 in Hn. intros H. apply Hn.
      apply in_or_app. now left.
Qed.

(** ** [_shift_within_group] *)

Lemma find_Some (ch : char) (s : str) (i : nat) :
  find ch s = Some i -> (i < length s)%nat /\ nth_error s i = Some ch.
Proof.
  revert i. induction s as [| c s IH]; intros i H; [discriminate |].
  cbn [find] in H. destruct (N.eqb_spec c ch) as [-> | N].
  - injection H as <-. split; [simpl; lia | reflexivity].
  - destruct (find ch s) as [j |]; [| discriminate].
    injection H as <-. destruct (IH j eq_refl) as [Hj Hn].
    split; [simpl; lia | exact Hn].
Qed.

Lemma find_In (ch : char) (s : str) : In ch s -> exists i, find ch s = Some i.
Proof.
  induction s as [| c s IH]; intros H; [destruct H |].
  cbn [find]. destruct (N.eqb_spec c ch) as [-> | N]; [now exists 0%nat |].
  destruct H as [E | H]; [contradiction |].
  destruct (IH H) as [i ->]. now exists (S i).
Qed.

Lemma find_None (ch : char) (s : str) : ~ In ch s -> find ch s = None.
Proof.
  induction s as [| c s IH]; intros H; [reflexivity |].
  cbn [find]. cbn [In] in H.
  destruct (N.eqb_spec c ch) as [E | N]; [tauto |].
  rewrite IH by tauto. reflexivity.
Qed.

(** On a character of the group nothing raises and the result is
    [shift_char]'s. *)
Lemma shift_within_group_eq (ch : char) (shift : Z) (group : str) :
  In ch group ->
  _shift_within_group ch shift group = Ok (shift_char group shift ch)
  /\ In (shift_char group shift ch) group.
Proof.
  intros Hin. destruct (find_In ch group Hin) as [i Hi].
  destruct (find_Some ch group i Hi) as [Hlt _].
  unfold _shift_within_group, shift_char, str_index, imod. rewrite Hi.
  cbn [bind].
  assert (Hlen : (0 < len group)%Z) by (unfold len; lia).
  destruct (Z.eqb_spec (len group) 0) as [E | _]; [lia |]. cbn [bind].
  pose proof (Z.mod_pos_bound (Z.of_nat i + shift) (len group) Hlen) as Hb.
  set (j := ((Z.of_nat i + shift) mod len group)%Z) in *.
  assert (Hj : (Z.to_nat j < length group)%nat) by (unfold len in Hb; lia).
  split.
  - unfold index. destruct (Z.ltb_spec j 0); [lia |].
    destruct (Z.ltb_spec j 0); [lia |].
    now rewrite (nth_error_nth' group ch Hj).
  - now apply nth_In.
Qed.

(** ** [build_maps] *)

Lemma fill_eq (group : str) (shift : Z) :
  forall d : dict,
    NoDup group ->
    (forall ch, In ch group -> ~ In ch (map fst d)) ->
    for_ group
      (fun ch enc_map =>
         v <- _shift_within_group ch shift group ;;
         Ok (dict_set ch v enc_map))
      d
    = Ok (d ++ group_items group shift).
Proof.
  unfold group_items.
  assert (G : forall part d,
             incl part group -> NoDup part ->
             (forall ch, In ch part -> ~ In ch (map fst d)) ->
             for_ part
               (fun ch enc_map =>
                  v <- _shift_within_group ch shift group ;;
                  Ok (dict_set ch v enc_map))
               d
             = Ok (d ++ map (fun ch => (ch, shift_char group shift ch)) part)).
  { induction part as [| c part IH]; intros d Hincl Hn Hfresh.
    - cbn. now rewrite app_nil_r.
    - cbn [for_ map].
      destruct (shift_within_group_eq c shift group) as [E _];
        [apply Hincl; now left |].
      rewrite E. cbn [bind].
      rewrite dict_set_fresh by (apply Hfresh; now left).
      apply NoDup_cons_iff in Hn. destruct Hn as [Hc Hn].
      rewrite IH.
      + now rewrite <- app_assoc.
      + intros x Hx. apply Hincl. now right.
      + exact Hn.
      + intros ch Hch. rewrite map_app. cbn [map fst]. intros H.
        apply in_app_or in H. destruct H as [H | [<- | []]].
        * apply (Hfresh ch); [now right | exact H].
        * contradiction. }
  intros d Hn Hfresh. apply G; [apply incl_refl | exact Hn | exact Hfresh].
Qed.

Lemma group_items_keys (group : str) (shift : Z) :
  map fst (group_items group shift) = group.
Proof.
  unfold group_items. rewrite map_map. cbn [fst]. apply map_id.
Qed.

Lemma group_items_values (group : str) (shift : Z) :
  map snd (group_items group shift) = map (shift_char group shift) group.
Proof. unfold group_items. now rewrite map_map. Qed.

Lemma letters_NoDup : NoDup letters.
Proof.
  assert (E : nodup N.eq_dec letters = letters) by (vm_compute; reflexivity).
  rewrite <- E. apply NoDup_nodup.
Qed.

Lemma enc_items_keys (shift1 shift2 : Z) :
  map fst (enc_items shift1 shift2) = letters.
Proof.
  unfold enc_items, letters. now rewrite !map_app, !group_items_keys.
Qed.

(** Only the residue of the shift modulo the group size matters. *)
Lemma shift_char_mod (group : str) (shift : Z) (ch : char) :
  group <> [] ->
  shift_char group shift ch = shift_char group (shift mod len group) ch.
Proof.
  intros Hne. unfold shift_char. destruct (find ch group) as [i |]; [| reflexivity].
  rewrite Z.add_mod_idemp_r; [reflexivity |].
  unfold len. destruct group; [contradiction | simpl; lia].
Qed.

Lemma rotl_Permutation (r : nat) (group : str) : Permutation (rotl r group) group.
Proof.
  unfold rotl. rewrite Permutation_app_comm. now rewrite firstn_skipn.
Qed.

Lemma group_len (group : str) : is_group group -> len group = 13%Z.
Proof. intros [-> | [-> | [-> | ->]]]; reflexivity. Qed.

(** Shifting a whole group rotates it. *)
Lemma group_values_rotl (group : str) (n : nat) :
  is_group group -> (n < 13)%nat ->
  map (shift_char group (Z.of_nat n)) group = rotl n group.
Proof.
  intros Hg Hn.
  destruct Hg as [-> | [-> | [-> | ->]]];
    do 13 (destruct n as [| n]; [vm_compute; reflexivity |]); lia.
Qed.

Lemma group_values_Permutation (group : str) (shift : Z) :
  is_group group ->
  Permutation (map (shift_char group shift) group) group.
Proof.
  intros Hg. pose proof (group_len group Hg) as Hlen.
  assert (Hne : group <> []) by (intros ->; discriminate).
  rewrite (map_ext _ (shift_char group (shift mod len group)))
    by (intros ch; now apply shift_char_mod).
  rewrite Hlen.
  pose proof (Z.mod_pos_bound shift 13 ltac:(lia)) as Hb.
  rewrite <- (Z2Nat.id (shift mod 13)) by lia.
  rewrite group_values_rotl by (assumption || lia).
  apply rotl_Permutation.
Qed.

Lemma enc_items_values (shift1 shift2 : Z) :
  Permutation (map snd (enc_items shift1 shift2)) letters.
Proof.
  unfold enc_items, letters. rewrite !map_app, !group_items_values.
  repeat apply Permutation_app; apply group_values_Permutation;
    unfold is_group; tauto.
Qed.

Lemma NoDup_app_disjoint {A : Type} (l1 l2 : list A) (x : A) :
  NoDup (l1 ++ l2) -> In x l2 -> ~ In x l1.
Proof.
  induction l1 as [| a l1 IH]; intros Hn H2 H1; [destruct H1 |].
  cbn [app] in Hn. apply NoDup_cons_iff in Hn. destruct Hn as [Ha Hn].
  destruct H1 as [-> | H1].
  - apply Ha. apply in_or_app. now right.
  - now apply (IH Hn H2).
Qed.

Lemma group_NoDup_disjoint :
  NoDup LOWER_FIRST /\ NoDup LOWER_SECOND /\ NoDup UPPER_FIRST /\ NoDup UPPER_SECOND
  /\ (forall ch, In ch LOWER_SECOND -> ~ In ch LOWER_FIRST)
  /\ (forall ch, In ch UPPER_FIRST -> ~ In ch (LOWER_FIRST ++ LOWER_SECOND))
  /\ (forall ch, In ch UPPER_SECOND ->
                 ~ In ch (LOWER_FIRST ++ LOWER_SECOND ++ UPPER_FIRST)).
Proof.
  pose proof letters_NoDup as H. unfold letters in H.
  pose proof (NoDup_app_remove_r _ _ H) as H1.
  pose proof (NoDup_app_remove_l _ _ H) as H234.
  pose proof (NoDup_app_remove_r _ _ H234) as H2.
  pose proof (NoDup_app_remove_l _ _ H234) as H34.
  pose proof (NoDup_app_remove_r _ _ H34) as H3.
  pose proof (NoDup_app_remove_l _ _ H34) as H4.
  repeat (split; [assumption |]).
  split; [| split]; intros ch Hin.
  - apply (NoDup_app_disjoint _ _ ch H). apply in_or_app. now left.
  - assert (H' : NoDup ((LOWER_FIRST ++ LOWER_SECOND)
                        ++ UPPER_FIRST ++ UPPER_SECOND))
      by (now rewrite <- app_assoc).
    apply (NoDup_app_disjoint _ _ ch H'). apply in_or_app. now left.
  - assert (H' : NoDup ((LOWER_FIRST ++ LOWER_SECOND ++ UPPER_FIRST)
                        ++ UPPER_SECOND))
      by (now rewrite <- !app_assoc).
    exact (NoDup_app_disjoint _ _ ch H' Hin).
Qed.

(** [build_maps] never raises; its first dictionary holds the 52 letters in
    order, each with its shifted letter, and its second the same items
    swapped. *)
Lemma build_maps_eq (shift1 shift2 : Z) :
  build_maps shift1 shift2
  = Ok (enc_items shift1 shift2, map swap (enc_items shift1 shift2)).
Proof.
  destruct group_NoDup_disjoint as (N1 & N2 & N3 & N4 & D2 & D3 & D4).
  unfold build_maps, fill.
  rewrite fill_eq by (assumption || (intros ch _ []));
    cbn [bind app].
  rewrite fill_eq
    by (assumption || (intros ch; rewrite group_items_keys; apply D2));
    cbn [bind].
  rewrite fill_eq
    by (assumption
        || (intros ch; rewrite map_app, !group_items_keys; apply D3));
    cbn [bind].
  rewrite fill_eq
    by (assumption
        || (intros ch; rewrite !map_app, !group_items_keys, <- app_assoc;
            apply D4));
    cbn [bind].
  rewrite <- !app_assoc. fold (enc_items shift1 shift2).
  rewrite invert_items; [reflexivity |].
  cbn [map app].
  apply (Permutation_NoDup (Permutation_sym (enc_items_values shift1 shift2))).
  apply letters_NoDup.
Qed.

Lemma swap_keys (d : dict) : map fst (map swap d) = map snd d.
Proof. rewrite map_map. reflexivity. Qed.

Lemma swap_values (d : dict) : map snd (map swap d) = map fst d.
Proof. rewrite map_map. reflexivity. Qed.

Lemma swap_swap (d : dict) : map swap (map swap d) = d.
Proof.
  rewrite map_map. rewrite <- (map_id d) at 2.
  apply map_ext. now intros [k v].
Qed.

Lemma dict_get_Some_key (d : dict) (k : char) :
  In k (map fst d) -> exists v, dict_get d k = Some v.
Proof.
  induction d as [| [k' v'] d IH]; intros H; [destruct H |].
  cbn [dict_get]. destruct (N.eqb_spec k' k) as [E | N]; [now exists v' |].
  destruct H as [E | H]; [contradiction | now apply IH].
Qed.

(** Looking up in the swapped dictionary undoes a lookup. *)
Lemma lookup_swapped (d : dict) (ch : char) :
  NoDup (map snd d) ->
  (forall x, In x (map snd d) -> In x (map fst d)) ->
  match dict_get d ch with
  | Some v => dict_get (map swap d) v = Some ch
  | None => dict_get (map swap d) ch = None
  end.
Proof.
  intros Hv Hincl. destruct (dict_get d ch) as [v |] eqn:E.
  - apply dict_get_In; [now rewrite swap_keys |].
    apply dict_get_Some_In in E. apply in_map_iff. now exists (ch, v).
  - apply dict_get_None. rewrite swap_keys. intros H.
    destruct (dict_get_Some_key d ch (Hincl ch H)) as [v Ev]. congruence.
Qed.

Lemma transform_swapped (d : dict) (text : str) :
  NoDup (map snd d) ->
  (forall x, In x (map snd d) -> In x (map fst d)) ->
  transform_text (transform_text text d) (map swap d) = text.
Proof.
  intros Hv Hincl. unfold transform_text. rewrite map_map.
  rewrite <- (map_id text) at 2. apply map_ext. intros ch.
  pose proof (lookup_swapped d ch Hv Hincl) as H.
  destruct (dict_get d ch) as [v |]; now rewrite H.
Qed.

Lemma enc_items_facts (shift1 shift2 : Z) :
  let d := enc_items shift1 shift2 in
  NoDup (map fst d) /\ NoDup (map snd d)
  /\ (forall x, In x (map snd d) <-> In x (map fst d)).
Proof.
  cbn zeta. rewrite enc_items_keys.
  pose proof (enc_items_values shift1 shift2) as P.
  split; [apply letters_NoDup |]. split.
  - apply (Permutation_NoDup (Permutation_sym P)), letters_NoDup.
  - intros x. split; intros H.
    + now apply (Permutation_in _ P).
    + now apply (Permutation_in _ (Permutation_sym P)).
Qed.

(** Decrypting an encrypted text gives the text back, and so does
    encrypting a decrypted text, for every pair of shifts and every text:
    [build_maps] never raises and its two dictionaries are inverse
    permutations of the 52 letters. *)
Theorem decrypt_encrypt (shift1 shift2 : Z) (text : str) :
  exists enc_map dec_map,
    build_maps shift1 shift2 = Ok (enc_map, dec_map)
    /\ transform_text (transform_text text enc_map) dec_map = text
    /\ transform_text (transform_text text dec_map) enc_map = text.
Proof.
  exists (enc_items shift1 shift2), (map swap (enc_items shift1 shift2)).
  destruct (enc_items_facts shift1 shift2) as (Hk & Hv & Hkv).
  split; [apply build_maps_eq |]. split.
  - apply transform_swapped; [exact Hv | apply Hkv].
  - rewrite <- (swap_swap (enc_items shift1 shift2)) at 2.
    apply transform_swapped; rewrite ?swap_keys, ?swap_values;
      [exact Hk | apply Hkv].
Qed.

(** ** Letters and other characters *)

(** [_shift_within_group] raises [ValueError] exactly on a character that
    is not in the group; on a character of the group it returns a
    character of the same group, whatever the shift. *)
Theorem shift_within_group_cases (ch : char) (shift : Z) (group : str) :
  (In ch group
   /\ exists v, _shift_within_group ch shift group = Ok v /\ In v group)
  \/ (~ In ch group
      /\ _shift_within_group ch shift group = Raise ValueError).
Proof.
  destruct (in_dec N.eq_dec ch group) as [Hin | Hout].
  - left. split; [exact Hin |].
    destruct (shift_within_group_eq ch shift group Hin) as [E Hv]. eauto.
  - right. split; [exact Hout |].
    unfold _shift_within_group, str_index. now rewrite find_None.
Qed.

Lemma enc_items_In (shift1 shift2 : Z) (group : str) (ch : char) :
  is_group group -> In ch group ->
  exists shift, In (ch, shift_char group shift ch) (enc_items shift1 shift2).
Proof.
  intros Hg Hin. unfold enc_items.
  assert (H : forall k, In (ch, shift_char group k ch) (group_items group k)).
  { intros k. unfold group_items. apply in_map_iff. now exists ch. }
  destruct Hg as [-> | [-> | [-> | ->]]].
  - exists (shift1 * shift2)%Z. rewrite !in_app_iff. left. apply H.
  - exists (- (shift1 + shift2))%Z. rewrite !in_app_iff.
    right; left. apply H.
  - exists (- shift1)%Z. rewrite !in_app_iff. right; right; left. apply H.
  - exists (shift2 ^ 2)%Z. rewrite !in_app_iff. right; right; right. apply H.
Qed.

(** Encryption keeps a letter in its group of 13: a lowercase letter of
    a-m stays in a-m, one of n-z in n-z, and likewise for uppercase; and
    decryption maps the result back. *)
Theorem encrypt_keeps_group (shift1 shift2 : Z) (group : str) (ch : char) :
  is_group group -> In ch group ->
  exists enc_map dec_map v,
    build_maps shift1 shift2 = Ok (enc_map, dec_map)
    /\ dict_get enc_map ch = Some v
    /\ In v group
    /\ dict_get dec_map v = Some ch.
Proof.
  intros Hg Hin.
  destruct (enc_items_facts shift1 shift2) as (Hk & Hv & Hkv).
  destruct (enc_items_In shift1 shift2 group ch Hg Hin) as [k Hitem].
  exists (enc_items shift1 shift2), (map swap (enc_items shift1 shift2)),
    (shift_char group k ch).
  split; [apply build_maps_eq |]. split; [now apply dict_get_In |]. split.
  - now apply shift_within_group_eq.
  - apply dict_get_In; [now rewrite swap_keys |].
    apply in_map_iff. now exists (ch, shift_char group k ch).
Qed.

Lemma encrypt_keeps_group_witness :
  is_group LOWER_SECOND /\ In 122%N LOWER_SECOND
  /\ exists enc_map dec_map v,
       build_maps 3 5 = Ok (enc_map, dec_map)
       /\ dict_get enc_map 122%N = Some v
       /\ In v LOWER_SECOND
       /\ dict_get dec_map v = Some 122%N.
Proof.
  assert (Hg : is_group LOWER_SECOND) by (unfold is_group; tauto).
  assert (Hin : In 122%N LOWER_SECOND) by (vm_compute; tauto).
  split; [exact Hg |]. split; [exact Hin |].
  exact (encrypt_keeps_group 3 5 LOWER_SECOND 122%N Hg Hin).
Defined.

(** A character that is not one of the 52 ASCII letters (a digit, a space,
    a newline, punctuation, a non-ASCII letter) is left where it is, by
    encryption and by decryption. *)
Theorem non_letters_unchanged (shift1 shift2 : Z) (text : str) (i : nat)
  (ch : char) :
  nth_error text i = Some ch -> ~ In ch letters ->
  exists enc_map dec_map,
    build_maps shift1 shift2 = Ok (enc_map, dec_map)
    /\ nth_error (transform_text text enc_map) i = Some ch
    /\ nth_error (transform_text text dec_map) i = Some ch.
Proof.
  intros Hi Hout.
  destruct (enc_items_facts shift1 shift2) as (Hk & Hv & Hkv).
  exists (enc_items shift1 shift2), (map swap (enc_items shift1 shift2)).
  split; [apply build_maps_eq |].
  unfold transform_text. rewrite !nth_error_map, Hi. cbn [option_map].
  rewrite !dict_get_None; [now split | |].
  - rewrite swap_keys. intros H. apply Hkv in H.
    now rewrite enc_items_keys in H.
  - now rewrite enc_items_keys.
Qed.

Lemma non_letters_unchanged_witness :
  nth_error hello 5 = Some 44%N /\ ~ In 44%N letters
  /\ exists enc_map dec_map,
       build_maps 3 5 = Ok (enc_map, dec_map)
       /\ nth_error (transform_text hello enc_map) 5 = Some 44%N
       /\ nth_error (transform_text hello dec_map) 5 = Some 44%N.
Proof.
  assert (Hout : ~ In 44%N letters).
  { vm_compute. intros H.
    repeat (destruct H as [H | H]; [discriminate |]). exact H. }
  split; [reflexivity |]. split; [exact Hout |].
  exact (non_letters_unchanged 3 5 hello 5 44%N eq_refl Hout).
Defined.

(** ** How much of the shifts matters *)

Lemma group_items_mod (group : str) (k k' : Z) :
  is_group group -> (k mod 13 = k' mod 13)%Z ->
  group_items group k = group_items group k'.
Proof.
  intros Hg E. pose proof (group_len group Hg) as Hlen.
  assert (Hne : group <> []) by (intros ->; discriminate).
  unfold group_items. apply map_ext. intros ch. f_equal.
  rewrite (shift_char_mod group k), (shift_char_mod group k') by assumption.
  now rewrite Hlen, E.
Qed.

(** The dictionaries depend on the two shifts only modulo 13: adding
    multiples of 13 to either shift changes nothing, so there are at most
    169 different keys. *)
Theorem build_maps_period (shift1 shift2 a b : Z) :
  build_maps (shift1 + 13 * a) (shift2 + 13 * b) = build_maps shift1 shift2.
Proof.
  rewrite !build_maps_eq.
  assert (E : enc_items (shift1 + 13 * a) (shift2 + 13 * b)
              = enc_items shift1 shift2).
  { unfold enc_items. f_equal; [| f_equal; [| f_equal]];
      apply group_items_mod; try (unfold is_group; tauto).
    - replace ((shift1 + 13 * a) * (shift2 + 13 * b))%Z
        with (shift1 * shift2 + (a * shift2 + b * shift1 + 13 * a * b) * 13)%Z
        by ring.
      apply Z_mod_plus_full.
    - replace (- (shift1 + 13 * a + (shift2 + 13 * b)))%Z
        with (- (shift1 + shift2) + (- a - b) * 13)%Z by ring.
      apply Z_mod_plus_full.
    - replace (- (shift1 + 13 * a))%Z with (- shift1 + (- a) * 13)%Z by ring.
      apply Z_mod_plus_full.
    - replace ((shift2 + 13 * b) ^ 2)%Z
        with (shift2 ^ 2 + (2 * shift2 * b + 13 * b * b) * 13)%Z by ring.
      apply Z_mod_plus_full. }
  now rewrite E.
Qed.

(** ** Files *)

Lemma write_same (fs : files) (p : path) (text : str) :
  write fs p text p = Some text.
Proof. unfold write. now rewrite String.eqb_refl. Qed.

Lemma write_other (fs : files) (p q : path) (text : str) :
  q <> p -> write fs p text q = fs q.
Proof.
  intros N. unfold write. destruct (String.eqb_spec q p); [contradiction | reflexivity].
Qed.

Lemma str_eqb_refl (t : str) : str_eqb t t = true.
Proof.
  unfold str_eqb. destruct (list_eq_dec N.eq_dec t t); [reflexivity | contradiction].
Qed.

Lemma files_round_trip (fs : files) (original encrypted decrypted : path)
  (shift1 shift2 : Z) (text : str) :
  fs original = Some text -> original <> encrypted ->
  exists fs1 fs2,
    encrypt_file fs original encrypted shift1 shift2 = Finished fs1
    /\ decrypt_file fs1 encrypted decrypted shift1 shift2 = Finished fs2
    /\ fs2 decrypted = Some text
    /\ verify_files fs2 original decrypted = Finished true.
Proof.
  intros Hin Hne.
  destruct (enc_items_facts shift1 shift2) as (_ & Hv & Hkv).
  pose proof (transform_swapped (enc_items shift1 shift2) text Hv
                (fun x => proj1 (Hkv x))) as Hrt.
  unfold encrypt_file, decrypt_file, verify_files.
  rewrite build_maps_eq, Hin.
  revert Hrt. generalize (enc_items shift1 shift2). intros d Hrt.
  set (fs1 := write fs encrypted (transform_text text d)).
  set (fs2 := write fs1 decrypted text).
  exists fs1, fs2. split; [reflexivity |].
  assert (E1 : fs1 encrypted = Some (transform_text text d))
    by apply write_same.
  rewrite E1, Hrt. split; [reflexivity |].
  assert (E2 : fs2 decrypted = Some text) by apply write_same.
  split; [exact E2 |].
  assert (E0 : fs2 original = Some text).
  { destruct (String.eqb_spec original decrypted) as [<- | Hd]; [exact E2 |].
    unfold fs2, fs1. now rewrite !write_other by assumption. }
  now rewrite E0, E2, str_eqb_refl.
Qed.


Lemma in_path_not_enc_path : Alphabet.in_path <> Alphabet.enc_path.
Proof. discriminate. Qed.


(** ** [main] *)

Lemma run_eq (fs : files) (shift1 shift2 : Z) :
  (fs Alphabet.in_path = None
   /\ run fs shift1 shift2
      = ([FileNotFound Alphabet.in_path], Exited 1, fs))
  \/ (exists text fs2,
        fs Alphabet.in_path = Some text
        /\ run fs shift1 shift2
           = ([Encrypted; Decrypted; Verification true], Done tt, fs2)
        /\ fs2 Alphabet.dec_path = Some text
        /\ fs2 Alphabet.in_path = Some text).
Proof.
  destruct (fs Alphabet.in_path) as [text |] eqn:Hin.
  - right.
    destruct (files_round_trip fs Alphabet.in_path Alphabet.enc_path
                Alphabet.dec_path shift1 shift2 text Hin in_path_not_enc_path)
      as (fs1 & fs2 & E1 & E2 & Hdec & Ev).
    exists text, fs2. split; [reflexivity |].
    unfold run. rewrite E1, E2, Ev. split; [reflexivity |].
    split; [exact Hdec |].
    unfold verify_files in Ev.
    destruct (fs2 Alphabet.in_path) as [t1 |]; [| discriminate].
    rewrite Hdec in Ev. injection Ev as Ev. unfold str_eqb in Ev.
    destruct (list_eq_dec N.eq_dec t1 text) as [-> | N];
      [reflexivity | discriminate].
  - left. split; [reflexivity |].
    unfold run, encrypt_file. now rewrite build_maps_eq, Hin.
Qed.

(** [main] never prints "Verification: FAILED" and never ends with an
    uncaught exception of the cipher.  It exits with status 1 when a shift
    is not an integer or is missing, or when raw_text.txt is missing, in
    both cases without having changed a file; otherwise it prints
    "Verification: SUCCESS" and decrypted_text.txt holds the text of
    raw_text.txt. *)
Theorem cipher_program_outcome (parse_int : String.string -> option Z)
  (fs : files) (inp : list String.string) :
  main parse_int fs inp = ([AskShift1; InvalidShifts], Exited 1, fs)
  \/ main parse_int fs inp = ([AskShift1; AskShift2; InvalidShifts], Exited 1, fs)
  \/ (fs Alphabet.in_path = None
      /\ main parse_int fs inp
         = ([AskShift1; AskShift2; FileNotFound Alphabet.in_path], Exited 1, fs))
  \/ (exists text fs2,
        fs Alphabet.in_path = Some text
        /\ main parse_int fs inp
           = ([AskShift1; AskShift2; Encrypted; Decrypted; Verification true],
              Done tt, fs2)
        /\ fs2 Alphabet.dec_path = Some text
        /\ fs2 Alphabet.in_path = Some text).
Proof.
  unfold main.
  destruct inp as [| line1 inp]; [now left |].
  destruct (parse_int line1) as [shift1 |]; [| now left].
  destruct inp as [| line2 inp]; [right; now left |].
  destruct (parse_int line2) as [shift2 |]; [| right; now left].
  destruct (run_eq fs shift1 shift2) as [[Hin E] | (text & fs2 & Hin & E & H1 & H2)];
    rewrite E.
  - right; right; left. now split.
  - right; right; right. exists text, fs2. now repeat split.
Qed.

End CipherFacts.
